(** * DynamicKey: the event-to-feature extraction engine of [cli.py]

    A shallow embedding of the pure core of the keystroke-dynamics CLI:
    the key anonymizer ([KeystrokeCapture._hash_key]), the feature
    extractor ([compute_round_features]), the aggregate statistics
    ([make_json_report] with its local [summarize_list]) and the
    construction of a [RoundResult] at the end of a round in [main].

    Conventions of the embedding.
    - A Python [float] timestamp or duration is a rational number [Q],
      with exact arithmetic; [hold >= 0] is [Qle_bool 0 hold].
    - A Python [str] is a [string] holding the UTF-8 bytes of its code
      points. A [str] may hold a surrogate code point (U+D800 to U+DFFF),
      which UTF-8 has no encoding for: it is held in the three-byte form
      [ED A0..BF 80..BF] of the same scheme, and [s.encode("utf-8")] raises
      [UnicodeEncodeError] on the strings that hold such a form.
    - A [dict] (and a [defaultdict]) keyed by strings is a [gmap string _].
    - An operation that can raise in Python ([d[k]], [del d[k]], [mean],
      [pstdev], [min], [max], [s.encode("utf-8")]) returns a [result]; that a
      function of the program never raises, or when it does, is then a
      theorem and not a convention. *)

From Stdlib Require Import QArith ZArith Ascii String List.
From stdpp Require Import gmap strings list fin_maps.

Open Scope Q_scope.

(** ** Exceptions *)

Inductive exn : Type :=
| KeyError
| StatisticsError
| ValueError
| UnicodeEncodeError.

Inductive result (A : Type) : Type :=
| Ok (a : A)
| Raise (e : exn).

Arguments Ok {A} a.
Arguments Raise {A} e.

#[global] Instance result_ret : MRet result := @Ok.

#[global] Instance result_bind : MBind result :=
  λ A B f m, match m with Ok a => f a | Raise e => Raise e end.

(** ** Dictionaries *)

(** [d[k]]: raises [KeyError] on a missing key. *)
Definition getitem {V} (d : gmap string V) (k : string) : result V :=
  match d !! k with
  | Some v => Ok v
  | None => Raise KeyError
  end.

(** [del d[k]]: raises [KeyError] on a missing key. *)
Definition delitem {V} (d : gmap string V) (k : string) : result (gmap string V) :=
  match d !! k with
  | Some _ => Ok (delete k d)
  | None => Raise KeyError
  end.

(** [k in d]. *)
Definition contains {V} (d : gmap string V) (k : string) : bool :=
  bool_decide (is_Some (d !! k)).

(** [d[k]] on a [defaultdict(list)]: a missing key reads as the empty list
    (and the read inserts it). *)
Definition defaultdict_get {V} (d : gmap string (list V)) (k : string) : list V :=
  default [] (d !! k).

(** [d[k].append(x)] on a [defaultdict(list)]. *)
Definition defaultdict_append {V} (d : gmap string (list V)) (k : string) (x : V)
  : gmap string (list V) :=
  <[k := defaultdict_get d k ++ [x]]> d.

(** [d[k].extend(xs)] on a [defaultdict(list)]: the key is created even when
    [xs] is empty. *)
Definition defaultdict_extend {V} (d : gmap string (list V)) (k : string) (xs : list V)
  : gmap string (list V) :=
  <[k := defaultdict_get d k ++ xs]> d.

(** ** Data model *)

Record KeyEvent : Type := mkKeyEvent {
  event : string;      (* 'down' or 'up' *)
  key_hash : string;
  timestamp : Q
}.

Definition Down (k : string) (t : Q) : KeyEvent := mkKeyEvent "down" k t.
Definition Up (k : string) (t : Q) : KeyEvent := mkKeyEvent "up" k t.

Record RoundResult : Type := mkRoundResult {
  round_index : Z;
  phrase : string;
  start_time : Q;
  end_time : Q;
  duration : Q;
  inter_key_intervals : list Q;
  key_hold_times : gmap string (list Q)
}.

(** ** Feature extractor *)

(** The variables of the loop of [compute_round_features], in the order
    [(key_hold_times, inter_key_intervals, last_down_ts, down_map)]. *)
Definition loop_state : Type :=
  gmap string (list Q) * list Q * option Q * gmap string Q.

Definition loop_init : loop_state := (∅, [], None, ∅).

(** One iteration of [for ev in events]. *)
Definition loop_body (st : loop_state) (ev : KeyEvent) : result loop_state :=
  let '(key_hold_times, inter_key_intervals, last_down_ts, down_map) := st in
  if bool_decide (event ev = "down") then
    let inter_key_intervals :=
      match last_down_ts with
      | Some last => inter_key_intervals ++ [timestamp ev - last]
      | None => inter_key_intervals
      end in
    let last_down_ts := Some (timestamp ev) in
    let down_map := <[key_hash ev := timestamp ev]> down_map in
    Ok (key_hold_times, inter_key_intervals, last_down_ts, down_map)
  else if bool_decide (event ev = "up") && contains down_map (key_hash ev) then
    pressed ← getitem down_map (key_hash ev);
    let hold := timestamp ev - pressed in
    let key_hold_times :=
      if Qle_bool 0 hold
      then defaultdict_append key_hold_times (key_hash ev) hold
      else key_hold_times in
    down_map ← delitem down_map (key_hash ev);
    Ok (key_hold_times, inter_key_intervals, last_down_ts, down_map)
  else Ok st.

Fixpoint loop (st : loop_state) (events : list KeyEvent) : result loop_state :=
  match events with
  | [] => Ok st
  | ev :: events => st ← loop_body st ev; loop st events
  end.

Definition compute_round_features (events : list KeyEvent)
  : result (list Q * gmap string (list Q)) :=
  st ← loop loop_init events;
  let '(key_hold_times, inter_key_intervals, _, _) := st in
  Ok (inter_key_intervals, key_hold_times).

(** ** SHA-256 ([hashlib.sha256], FIPS 180-4)

    Bytes are integers in [0, 256) and words are integers in [0, 2^32);
    additions wrap around modulo [2^32]. *)

Module sha256.
Local Open Scope Z_scope.

Definition add32 (x y : Z) : Z := (x + y) mod 2^32.

Definition rotr (n x : Z) : Z :=
  Z.lor (Z.shiftr x n) (Z.shiftl x (32 - n) mod 2^32).

Definition shr (n x : Z) : Z := Z.shiftr x n.

Definition not32 (x : Z) : Z := Z.lxor x 0xffffffff.

Definition Ch (x y z : Z) : Z := Z.lxor (Z.land x y) (Z.land (not32 x) z).

Definition Maj (x y z : Z) : Z :=
  Z.lxor (Z.lxor (Z.land x y) (Z.land x z)) (Z.land y z).

Definition Sigma0 (x : Z) : Z := Z.lxor (Z.lxor (rotr 2 x) (rotr 13 x)) (rotr 22 x).
Definition Sigma1 (x : Z) : Z := Z.lxor (Z.lxor (rotr 6 x) (rotr 11 x)) (rotr 25 x).
Definition sigma0 (x : Z) : Z := Z.lxor (Z.lxor (rotr 7 x) (rotr 18 x)) (shr 3 x).
Definition sigma1 (x : Z) : Z := Z.lxor (Z.lxor (rotr 17 x) (rotr 19 x)) (shr 10 x).

(** The first [n] primes among [2 .. bound]. *)
Definition is_prime (p : nat) : bool :=
  forallb (λ d, negb (p mod d =? 0)%nat) (seq 2 (p - 2)).

Definition primes (n bound : nat) : list Z :=
  map Z.of_nat (take n (filter (λ p, is_prime p = true) (seq 2 bound))).

(** The integer part of the cube root of [x], found bit by bit from bit
    [bits - 1] down. *)
Fixpoint cube_root (bits : nat) (x r : Z) : Z :=
  match bits with
  | O => r
  | S bits =>
      let r' := r + 2 ^ Z.of_nat bits in
      cube_root bits x (if r' * r' * r' <=? x then r' else r)
  end.

(** The round constants: the first 32 bits of the fractional parts of the
    cube roots of the first 64 primes. *)
Definition K : list Z :=
  Eval vm_compute in map (λ p, cube_root 36 (p * 2^96) 0 mod 2^32) (primes 64 312).

(** The eight working variables [a .. h], also the shape of a hash value. *)
Definition registers : Type := Z * Z * Z * Z * Z * Z * Z * Z.

(** The initial hash value: the first 32 bits of the fractional parts of the
    square roots of the first 8 primes. *)
Definition H0 : registers :=
  Eval vm_compute in
    match map (λ p, Z.sqrt (p * 2^64) mod 2^32) (primes 8 20) with
    | [h0; h1; h2; h3; h4; h5; h6; h7] => (h0, h1, h2, h3, h4, h5, h6, h7)
    | _ => (0, 0, 0, 0, 0, 0, 0, 0)
    end.

(** Padding: a [0x80] byte, zero bytes up to 56 modulo 64, then the length of
    the message in bits as 8 big-endian bytes. *)
Definition be_bytes (n : nat) (x : Z) : list Z :=
  map (λ i : nat, Z.shiftr x (8 * Z.of_nat i) mod 256) (rev (seq 0 n)).

Definition pad (msg : list Z) : list Z :=
  let len := Z.of_nat (length msg) in
  msg ++ [0x80] ++ replicate (Z.to_nat ((55 - len) mod 64)) 0 ++ be_bytes 8 (8 * len).

Fixpoint words_of_bytes (bs : list Z) : list Z :=
  match bs with
  | b0 :: b1 :: b2 :: b3 :: bs =>
      (Z.shiftl b0 24 + Z.shiftl b1 16 + Z.shiftl b2 8 + b3) :: words_of_bytes bs
  | _ => []
  end.

(** The message schedule: [n] more words after the ones in [w]. *)
Fixpoint schedule (n : nat) (w : list Z) : list Z :=
  match n with
  | O => w
  | S n =>
      let t := length w in
      let W (i : nat) := nth (t - i) w 0 in
      schedule n (w ++ [add32 (add32 (add32 (sigma1 (W 2%nat)) (W 7%nat)) (sigma0 (W 15%nat))) (W 16%nat)])
  end.

Definition round (r : registers) (kw : Z * Z) : registers :=
  let '(a, b, c, d, e, f, g, h) := r in
  let T1 := add32 (add32 (add32 (add32 h (Sigma1 e)) (Ch e f g)) (fst kw)) (snd kw) in
  let T2 := add32 (Sigma0 a) (Maj a b c) in
  (add32 T1 T2, a, b, c, add32 d T1, e, f, g).

Definition compress (H : registers) (block : list Z) : registers :=
  let W := schedule 48 (words_of_bytes block) in
  let '(a, b, c, d, e, f, g, h) := foldl round H (combine K W) in
  let '(h0, h1, h2, h3, h4, h5, h6, h7) := H in
  (add32 h0 a, add32 h1 b, add32 h2 c, add32 h3 d,
   add32 h4 e, add32 h5 f, add32 h6 g, add32 h7 h).

(** [n] blocks of 64 bytes, in order. *)
Fixpoint blocks (n : nat) (H : registers) (bs : list Z) : registers :=
  match n with
  | O => H
  | S n => blocks n (compress H (take 64 bs)) (drop 64 bs)
  end.

Definition digest (msg : list Z) : list Z :=
  let padded := pad msg in
  let '(h0, h1, h2, h3, h4, h5, h6, h7) := blocks (length padded / 64) H0 padded in
  concat (map (be_bytes 4) [h0; h1; h2; h3; h4; h5; h6; h7]).

Definition hex_digit (n : Z) : ascii :=
  default "0"%char (String.get (Z.to_nat n) "0123456789abcdef").

Fixpoint hex (bs : list Z) : string :=
  match bs with
  | [] => EmptyString
  | b :: bs => String (hex_digit (b / 16)) (String (hex_digit (b mod 16)) (hex bs))
  end.

Definition hexdigest (msg : list Z) : string := hex (digest msg).

End sha256.

(** The bytes a string holds. *)
Definition bytes_of_string (s : string) : list Z :=
  map (λ c, Z.of_N (N_of_ascii c)) (list_ascii_of_string s).

(** The first two bytes of a surrogate code point: [ED], then a byte from
    [A0] to [BF]. *)
Definition surrogate_start (c d : ascii) : bool :=
  (N_of_ascii c =? 0xED)%N && ((0xA0 <=? N_of_ascii d)%N && (N_of_ascii d <=? 0xBF)%N).

(** The string holds a surrogate code point. *)
Fixpoint has_surrogate (s : string) : bool :=
  match s with
  | String c ((String d _) as rest) => surrogate_start c d || has_surrogate rest
  | _ => false
  end.

(** [s.encode("utf-8")]: the bytes of the string; [UnicodeEncodeError] when
    the string holds a surrogate code point. *)
Definition encode_utf8 (s : string) : result (list Z) :=
  if has_surrogate s then Raise UnicodeEncodeError else Ok (bytes_of_string s).

(** ** Key identifier anonymizer *)

Record KeystrokeCapture : Type := mkKeystrokeCapture {
  salt : string;
  anonymize : bool;
  events : list KeyEvent;
  _down_timestamps : gmap string Q
}.

Definition _hash_key (self : KeystrokeCapture) (key_name : string) : result string :=
  if negb (anonymize self) then Ok key_name
  else
    encoded ← encode_utf8 (salt self ++ "::" ++ key_name);
    Ok (sha256.hexdigest encoded).

(** ** The functions of Python's library that [summarize_list] calls *)

Module builtins.

(** [min(lst)]: the first smallest element; [ValueError] on an empty list. *)
Definition min (lst : list Q) : result Q :=
  match lst with
  | [] => Raise ValueError
  | x :: lst => Ok (foldl (λ m y, if Qle_bool m y then m else y) x lst)
  end.

(** [max(lst)]: the first largest element; [ValueError] on an empty list. *)
Definition max (lst : list Q) : result Q :=
  match lst with
  | [] => Raise ValueError
  | x :: lst => Ok (foldl (λ m y, if Qle_bool y m then m else y) x lst)
  end.

(** [sum(lst)]. *)
Definition sum (lst : list Q) : Q := foldl Qplus 0 lst.

(** [len(lst)] as a number. *)
Definition len (lst : list Q) : Q := inject_Z (Z.of_nat (length lst)).

End builtins.

Module statistics.

(** [statistics.mean]: the arithmetic mean; [StatisticsError] on no data. *)
Definition mean (data : list Q) : result Q :=
  match data with
  | [] => Raise StatisticsError
  | _ => Ok (builtins.sum data / builtins.len data)
  end.

(** The sum of the squared deviations of [data] from [c]. *)
Definition ss (c : Q) (data : list Q) : Q :=
  builtins.sum (map (λ x, (x - c) * (x - c)) data).

Section Sqrt.

(** The square root is not a function on [Q]: it is a parameter of [pstdev]
    and of all that calls it. *)
Variable sqrt : Q → Q.

(** [statistics.pstdev]: the square root of the population variance, which
    divides the sum of the squared deviations from the mean by the number of
    data points; [StatisticsError] on no data. *)
Definition pstdev (data : list Q) : result Q :=
  mu ← mean data;
  Ok (sqrt (ss mu data / builtins.len data)).

End Sqrt.

End statistics.

(** ** Aggregate statistics *)

(** The dictionary [summarize_list] returns: [{"count": 0}], or the five
    keys [count], [mean], [stdev], [min], [max]. *)
Inductive StatSummary : Type :=
| CountOnly (count : nat)
| Stats (count : nat) (mean stdev min max : Q).

Module Aggregate.
Record t : Type := mk {
  inter_key_intervals : StatSummary;
  key_hold_times : gmap string StatSummary
}.
End Aggregate.

Record Report (M : Type) : Type := mkReport {
  metadata : M;
  rounds : list RoundResult;
  aggregate : Aggregate.t
}.

Arguments mkReport {M} _ _ _.
Arguments metadata {M} _.
Arguments rounds {M} _.
Arguments aggregate {M} _.

(** [{k: f(v) for k, v in items}], the items taken in order. *)
Fixpoint dict_comprehension {A B} (f : A → result B) (items : list (string * A))
    (out : gmap string B) : result (gmap string B) :=
  match items with
  | [] => Ok out
  | (k, v) :: items => b ← f v; dict_comprehension f items (<[k := b]> out)
  end.

(** [d.items()]. *)
Definition items {V} (d : gmap string V) : list (string * V) := map_to_list d.

(** [dataclasses.asdict(r)]: a deep copy of the fields of [r]. *)
Definition asdict (r : RoundResult) : RoundResult := r.

Section Report.

Variable sqrt : Q → Q.

Definition summarize_list (lst : list Q) : result StatSummary :=
  match lst with
  | [] => Ok (CountOnly 0)
  | _ =>
      mean ← statistics.mean lst;
      stdev ← (if (1 <? length lst)%nat then statistics.pstdev sqrt lst else Ok 0);
      min ← builtins.min lst;
      max ← builtins.max lst;
      Ok (Stats (length lst) mean stdev min max)
  end.

(** The variables of the loop of [make_json_report], in the order
    [(out["rounds"], all_intervals, aggregate_key_holds)]. *)
Definition report_state : Type :=
  list RoundResult * list Q * gmap string (list Q).

(** One iteration of [for r in all_rounds]. *)
Definition report_body (st : report_state) (r : RoundResult) : report_state :=
  let '(out_rounds, all_intervals, aggregate_key_holds) := st in
  let out_rounds := out_rounds ++ [asdict r] in
  let all_intervals := all_intervals ++ inter_key_intervals r in
  let aggregate_key_holds :=
    foldl (λ acc '(k, holds), defaultdict_extend acc k holds)
          aggregate_key_holds (items (key_hold_times r)) in
  (out_rounds, all_intervals, aggregate_key_holds).

Definition make_json_report {M} (all_rounds : list RoundResult) (metadata : M)
  : result (Report M) :=
  let '(out_rounds, all_intervals, aggregate_key_holds) :=
    foldl report_body ([], [], ∅) all_rounds in
  intervals ← summarize_list all_intervals;
  holds ← dict_comprehension summarize_list (items aggregate_key_holds) ∅;
  Ok (mkReport metadata out_rounds (Aggregate.mk intervals holds)).

End Report.

(** ** The end of a round in [main] *)

Section Round.

(** [time.perf_counter()]: the clock is read by the number of the call. *)
Variable perf_counter : nat → Q.

(** One iteration of [for round_idx in range(1, args.rounds + 1)], from the
    first reading of the clock on: [tick] counts the readings so far and
    [round_events] is the copy of [cap.events] taken when the round ends. *)
Definition round_body (tick : nat) (round_idx : Z) (args_phrase : string)
    (round_events : list KeyEvent) : result (nat * RoundResult) :=
  let start_time := perf_counter tick in
  let end_time := perf_counter (S tick) in
  let duration := end_time - start_time in
  '(inter_key_intervals, key_hold_times) ← compute_round_features round_events;
  Ok (S (S tick),
      mkRoundResult round_idx args_phrase start_time end_time duration
                    inter_key_intervals key_hold_times).

(** The rounds of a session: [captured] holds the events of each round. *)
Fixpoint rounds_loop (tick : nat) (round_idx : Z) (args_phrase : string)
    (captured : list (list KeyEvent)) (all_rounds : list RoundResult)
  : result (list RoundResult) :=
  match captured with
  | [] => Ok all_rounds
  | round_events :: captured =>
      '(tick, round_result) ← round_body tick round_idx args_phrase round_events;
      rounds_loop tick (round_idx + 1)%Z args_phrase captured (all_rounds ++ [round_result])
  end.

End Round.

(** ** Event recorder *)

(** A key object handed to the callbacks: its [char] attribute, [None] when
    the key has none, and [str(key)]. *)
Record Key : Type := mkKey {
  char : option string;
  str_key : string
}.

(** [getattr(key, "char", None) or str(key)]: an empty [char] is falsy. *)
Definition key_name (key : Key) : string :=
  match char key with
  | Some c => if bool_decide (c = "") then str_key key else c
  | None => str_key key
  end.

(** [KeystrokeCapture.__init__]; [uuid4_hex] is [uuid.uuid4().hex]. *)
Definition __init__ (uuid4_hex : string) (anonymize : bool) : KeystrokeCapture :=
  mkKeystrokeCapture (if anonymize then uuid4_hex else "") anonymize [] ∅.

Definition clear (self : KeystrokeCapture) : KeystrokeCapture :=
  mkKeystrokeCapture (salt self) (anonymize self) [] ∅.

(** What the listener delivers: a call of [on_press] or of [on_release]. *)
Inductive callback : Type :=
| Press (key : Key)
| Release (key : Key).

Section Recorder.

(** [time.perf_counter()], read by the number of the call as in [main]. *)
Variable perf_counter : nat → Q.

Definition on_press (tick : nat) (self : KeystrokeCapture) (key : Key)
  : result (nat * KeystrokeCapture) :=
  let name := key_name key in
  key_h ← _hash_key self name;
  let ts := perf_counter tick in
  Ok (S tick,
      mkKeystrokeCapture (salt self) (anonymize self)
        (events self ++ [mkKeyEvent "down" key_h ts])
        (<[key_h := ts]> (_down_timestamps self))).

Definition on_release (tick : nat) (self : KeystrokeCapture) (key : Key)
  : result (nat * KeystrokeCapture) :=
  let name := key_name key in
  key_h ← _hash_key self name;
  let ts := perf_counter tick in
  let events := events self ++ [mkKeyEvent "up" key_h ts] in
  _down_timestamps ←
    (if contains (_down_timestamps self) key_h
     then delitem (_down_timestamps self) key_h
     else Ok (_down_timestamps self));
  Ok (S tick, mkKeystrokeCapture (salt self) (anonymize self) events _down_timestamps).

(** A call of [on_press] or of [on_release]. *)
Definition run_callback (tick : nat) (self : KeystrokeCapture) (call : callback)
  : result (nat * KeystrokeCapture) :=
  match call with
  | Press key => on_press tick self key
  | Release key => on_release tick self key
  end.

(** The callbacks of the listener, run on its thread in the order of
    delivery. An exception of a callback ends the listener's thread: the
    callbacks after it are not run and the recorder stays as the callbacks
    before it left it; the exception reaches [main] only through
    [listener.join()], which [main] never calls. *)
Fixpoint listener (tick : nat) (self : KeystrokeCapture) (calls : list callback)
  : result (nat * KeystrokeCapture) :=
  match calls with
  | [] => Ok (tick, self)
  | call :: calls =>
      match run_callback tick self call with
      | Ok (tick, self) => listener tick self calls
      | Raise _ => Ok (tick, self)
      end
  end.

End Recorder.

(** ** The summary sent to the webhook *)




(** ** Notions the statements use *)

Definition is_down (ev : KeyEvent) : bool := bool_decide (event ev = "down").

(** The timestamps of the [Down] events, in the order of the sequence. *)
Definition down_timestamps (events : list KeyEvent) : list Q :=
  map timestamp (filter (λ ev, is_down ev = true) events).

(** Each element is at most the next one. *)
Fixpoint nondecreasing (ts : list Q) : bool :=
  match ts with
  | t :: (t' :: _) as ts => Qle_bool t t' && nondecreasing ts
  | _ => true
  end.

(** The differences between consecutive timestamps, the first one taken
    against [last] when there is one. *)
Fixpoint gaps (last : option Q) (ts : list Q) : list Q :=
  match ts with
  | [] => []
  | t :: ts =>
      match last with
      | Some l => (t - l) :: gaps (Some t) ts
      | None => gaps (Some t) ts
      end
  end.

(** What [loop_body] returns, without the exceptions. *)
Definition loop_next (st : loop_state) (ev : KeyEvent) : loop_state :=
  let '(holds, intervals, last, open_press) := st in
  if bool_decide (event ev = "down") then
    (holds,
     match last with Some l => intervals ++ [timestamp ev - l] | None => intervals end,
     Some (timestamp ev),
     <[key_hash ev := timestamp ev]> open_press)
  else if bool_decide (event ev = "up") then
    match open_press !! key_hash ev with
    | Some pressed =>
        (if Qle_bool 0 (timestamp ev - pressed)
         then defaultdict_append holds (key_hash ev) (timestamp ev - pressed)
         else holds,
         intervals, last, delete (key_hash ev) open_press)
    | None => st
    end
  else st.

Definition holds_of (st : loop_state) : gmap string (list Q) := st.1.1.1.
Definition intervals_of (st : loop_state) : list Q := st.1.1.2.
Definition last_of (st : loop_state) : option Q := st.1.2.
Definition open_of (st : loop_state) : gmap string Q := st.2.

(** The invariants of the loop: the recorded holds are non-negative, and no
    key is recorded with an empty list. *)
Definition holds_nonneg (st : loop_state) : Prop :=
  ∀ k holds, holds_of st !! k = Some holds → Forall (Qle 0) holds.

Definition holds_nonempty (st : loop_state) : Prop :=
  ∀ k holds, holds_of st !! k = Some holds → holds ≠ [].

(** The key's hold times over all rounds, concatenated in the order of the
    rounds; a round without the key contributes nothing. *)
Definition all_holds (k : string) (all_rounds : list RoundResult) : list Q :=
  concat (map (λ r, defaultdict_get (key_hold_times r) k) all_rounds).

(** The key is one of some round's hold-time mapping. *)
Definition has_key (k : string) (all_rounds : list RoundResult) : bool :=
  existsb (λ r, contains (key_hold_times r) k) all_rounds.

(** What [summarize_list] returns, without the exceptions. *)
Definition summary (sqrt : Q → Q) (lst : list Q) : StatSummary :=
  match lst with
  | [] => CountOnly 0
  | x :: tl =>
      let mean := builtins.sum lst / builtins.len lst in
      Stats (length lst) mean
            (if (1 <? length lst)%nat
             then sqrt (statistics.ss mean lst / builtins.len lst) else 0)
            (foldl (λ m y, if Qle_bool m y then m else y) x tl)
            (foldl (λ m y, if Qle_bool y m then m else y) x tl)
  end.

(** A character of a lower-case hexadecimal numeral. *)
Definition is_hex_digit (c : ascii) : bool :=
  existsb (Ascii.eqb c) (list_ascii_of_string "0123456789abcdef").

(** The events of one key, in the order of the sequence. *)
Definition events_of_key (k : string) (events : list KeyEvent) : list KeyEvent :=
  filter (λ ev, key_hash ev = k) events.

(** The number of events of a kind (["down"], ["up"]) of one key. *)
Definition count_events (kind k : string) (events : list KeyEvent) : nat :=
  length (filter (λ ev, event ev = kind ∧ key_hash ev = k) events).

(** The timestamps of all the events, in the order of the sequence. *)
Definition timestamps (events : list KeyEvent) : list Q := map timestamp events.

(** Two states of the loop hold the same for key [k]: the same recorded
    holds and the same open press. *)
Definition agree_on (k : string) (st st' : loop_state) : Prop :=
  holds_of st !! k = holds_of st' !! k ∧ open_of st !! k = open_of st' !! k.

(** The bookkeeping of the recorder is the open-press map of the extractor on
    the events recorded so far. *)
Definition bookkeeping_agrees (self : KeystrokeCapture) : Prop :=
  open_of (foldl loop_next loop_init (events self)) = _down_timestamps self.

(** A string of 64 lower-case hexadecimal digits. *)
Definition is_hex_digest (s : string) : bool :=
  (String.length s =? 64)%nat && forallb is_hex_digit (list_ascii_of_string s).


(** The readings of the clock that bound the rounds, in the order of the
    rounds: each round's [start_time], then its [end_time]. *)
Definition round_bounds (all_rounds : list RoundResult) : list Q :=
  flat_map (λ r, [start_time r; end_time r]) all_rounds.

(** The number of open presses of a key: one or none. *)
Definition open_count (st : loop_state) (k : string) : nat :=
  match open_of st !! k with Some _ => 1 | None => 0 end.

(** ** The feature extractor never raises *)

Lemma loop_body_next st ev : loop_body st ev = Ok (loop_next st ev).
Proof.
  destruct st as [[[holds intervals] last] open_press].
  unfold loop_body, loop_next, contains, getitem, delitem.
  destruct (bool_decide (event ev = "down")); [done|].
  destruct (bool_decide (event ev = "up")); simpl; [|done].
  by destruct (open_press !! key_hash ev) as [pressed|].
Qed.

Lemma loop_foldl events : ∀ st, loop st events = Ok (foldl loop_next st events).
Proof.
  induction events as [|ev events IH]; intros st; simpl; [done|].
  rewrite loop_body_next. simpl. apply IH.
Qed.

Lemma compute_round_features_foldl events :
  compute_round_features events =
  Ok (intervals_of (foldl loop_next loop_init events),
      holds_of (foldl loop_next loop_init events)).
Proof.
  unfold compute_round_features. rewrite loop_foldl. simpl.
  by destruct (foldl loop_next loop_init events) as [[[? ?] ?] ?].
Qed.

(** ** Invariants of the loop *)

Lemma foldl_invariant (P : loop_state → Prop) :
  (∀ st ev, P st → P (loop_next st ev)) →
  ∀ events st, P st → P (foldl loop_next st events).
Proof.
  intros Hstep events. induction events as [|ev events IH]; intros st Hst; simpl; auto.
Qed.

Lemma defaultdict_append_lookup {V} (d : gmap string (list V)) k x k' :
  defaultdict_append d k x !! k' =
  if decide (k = k') then Some (defaultdict_get d k ++ [x]) else d !! k'.
Proof. unfold defaultdict_append. apply lookup_insert. Qed.

(** The cases of one iteration for an invariant on the recorded holds: only
    a release with a non-negative hold changes them. *)
Ltac holds_invariant_cases st ev Hst :=
  destruct st as [[[holds intervals] last] open_press];
  unfold holds_of, loop_next; simpl; intros Hst k l;
  destruct (bool_decide (event ev = "down")); simpl; [apply Hst|];
  destruct (bool_decide (event ev = "up")); simpl; [|apply Hst];
  destruct (open_press !! key_hash ev) as [pressed|]; simpl; [|apply Hst];
  destruct (Qle_bool 0 (timestamp ev - pressed)) eqn:Hle; simpl; [|apply Hst];
  rewrite defaultdict_append_lookup; case_decide; [|apply Hst];
  intros [= <-].

Lemma holds_nonneg_next st ev : holds_nonneg st → holds_nonneg (loop_next st ev).
Proof.
  unfold holds_nonneg. holds_invariant_cases st ev Hst.
  apply Forall_app. split.
  - unfold defaultdict_get. destruct (holds !! key_hash ev) eqn:Hk; simpl; [eauto|constructor].
  - repeat constructor. by apply Qle_bool_iff.
Qed.

Lemma holds_nonempty_next st ev : holds_nonempty st → holds_nonempty (loop_next st ev).
Proof.
  unfold holds_nonempty. holds_invariant_cases st ev Hst.
  by destruct (defaultdict_get holds (key_hash ev)).
Qed.

Lemma holds_nonneg_init : holds_nonneg loop_init.
Proof. intros k l. unfold holds_of; simpl. by rewrite lookup_empty. Qed.

Lemma holds_nonempty_init : holds_nonempty loop_init.
Proof. intros k l. unfold holds_of; simpl. by rewrite lookup_empty. Qed.

(** The intervals are the gaps between the [Down] timestamps. *)
Lemma intervals_foldl events : ∀ st,
  intervals_of (foldl loop_next st events) =
  intervals_of st ++ gaps (last_of st) (down_timestamps events).
Proof.
  unfold down_timestamps, is_down.
  induction events as [|ev events IH]; intros st; simpl.
  { by rewrite app_nil_r. }
  rewrite IH. clear IH.
  destruct st as [[[holds intervals] last] open_press].
  unfold loop_next, intervals_of, last_of; simpl.
  rewrite filter_cons.
  destruct (bool_decide (event ev = "down")) eqn:Hdown; simpl.
  - destruct last as [l|]; simpl; [by rewrite <- app_assoc|done].
  - destruct (bool_decide (event ev = "up")); simpl; [|done].
    by destruct (open_press !! key_hash ev).
Qed.

Lemma gaps_length ts : ∀ last,
  length (gaps last ts) =
  match last with Some _ => length ts | None => Nat.pred (length ts) end.
Proof.
  induction ts as [|t ts IH]; intros last; simpl.
  { by destruct last. }
  destruct last; simpl; rewrite IH; [done|].
  by destruct ts.
Qed.

Lemma Qle_minus_nonneg (a b : Q) : a <= b → 0 <= b - a.
Proof. intros H. unfold Qminus. by apply Qle_minus_iff in H. Qed.

Lemma gaps_nonneg ts : ∀ last,
  nondecreasing ts = true →
  match last, ts with Some l, t :: _ => l <= t | _, _ => True end →
  Forall (Qle 0) (gaps last ts).
Proof.
  induction ts as [|t ts IH]; intros last Hts Hlast; simpl; [constructor|].
  assert (Forall (Qle 0) (gaps (Some t) ts)) as Hrest.
  { apply IH.
    - destruct ts; [done|]. simpl in Hts. by apply andb_prop in Hts as [_ ?].
    - destruct ts; [done|]. simpl in Hts. apply andb_prop in Hts as [Hle _].
      by apply Qle_bool_iff. }
  destruct last as [l|]; [|done].
  constructor; [|done]. by apply Qle_minus_nonneg.
Qed.

Lemma down_timestamps_filter events :
  down_timestamps (filter (λ ev, is_down ev = true) events) = down_timestamps events.
Proof.
  unfold down_timestamps. f_equal.
  induction events as [|ev events IH]; [done|].
  rewrite filter_cons. case_decide as Hd.
  - rewrite !filter_cons. rewrite decide_True by done. by rewrite IH.
  - done.
Qed.

Lemma foldl_snoc_next st events ev :
  foldl loop_next st (events ++ [ev]) = loop_next (foldl loop_next st events) ev.
Proof. by rewrite foldl_app. Qed.

(** ** The claims on the feature extractor *)

(** C1, as the claim states it, fails: two [Down] events whose timestamps
    decrease give a negative interval, which no test removes. *)
Lemma C1_negative_interval :
  compute_round_features [Down "A" 10; Down "B" 0] = Ok ([-10], ∅) ∧
  ¬ Forall (Qle 0) [-10].
Proof.
  split; [by vm_compute|].
  intros Hall. apply Forall_cons in Hall as [Hle _]. by apply Hle.
Qed.

(** C1 (amended): on every event sequence [compute_round_features] returns,
    and every value of every key's hold times is [>= 0]; negative holds are
    dropped, not clamped: a release whose hold is negative appends nothing to
    the hold times, at whatever place of the sequence it stands (it changes
    the variables of the loop in one way only, the open press is removed), so
    that no negative hold appears in any output. Every inter-key interval is
    [>= 0] when the timestamps of the [Down] events do not decrease along the
    sequence. *)
Theorem C1_durations_nonneg (events : list KeyEvent) :
  ∃ intervals holds,
    compute_round_features events = Ok (intervals, holds) ∧
    (∀ k hs, holds !! k = Some hs → Forall (Qle 0) hs) ∧
    (nondecreasing (down_timestamps events) = true → Forall (Qle 0) intervals) ∧
    (∀ st k pressed t,
       open_of st !! k = Some pressed →
       t < pressed →
       loop_body st (Up k t)
       = Ok (holds_of st, intervals_of st, last_of st, delete k (open_of st))) ∧
    (∀ before after st k pressed t,
       loop loop_init before = Ok st →
       open_of st !! k = Some pressed →
       t < pressed →
       loop loop_init (before ++ Up k t :: after)
       = loop (holds_of st, intervals_of st, last_of st, delete k (open_of st)) after).
Proof.
  assert (∀ st k pressed t,
    open_of st !! k = Some pressed → t < pressed →
    loop_next st (Up k t)
    = (holds_of st, intervals_of st, last_of st, delete k (open_of st))) as Hdropped.
  { intros [[[hs ivs] lst] opn] k pressed t Hopen Hneg.
    unfold open_of in Hopen; simpl in Hopen.
    unfold loop_next, holds_of, intervals_of, last_of, open_of; simpl. rewrite Hopen.
    assert (Qle_bool 0 (t - pressed) = false) as ->; [|done].
    apply not_true_is_false. intros Hle%Qle_bool_iff.
    unfold Qminus in Hle. apply Qle_minus_iff in Hle.
    by apply Qlt_not_le in Hneg. }
  eexists _, _. split; [apply compute_round_features_foldl|].
  split; [|split; [|split]].
  - apply (foldl_invariant holds_nonneg); auto using holds_nonneg_next, holds_nonneg_init.
  - intros Hsorted. rewrite intervals_foldl. simpl.
    by apply gaps_nonneg.
  - intros st k pressed t Hopen Hneg.
    by rewrite loop_body_next, (Hdropped st k pressed t).
  - intros before after st k pressed t Hloop Hopen Hneg.
    rewrite loop_foldl in Hloop. injection Hloop as <-.
    rewrite !loop_foldl, foldl_app. simpl.
    by rewrite (Hdropped _ k pressed t).
Qed.

(** C1 on a sequence with increasing presses, and on a release of [A] earlier
    than its press, at the end of a sequence and in the middle of one. *)
Lemma C1_durations_nonneg_witness :
  ∃ intervals holds,
    compute_round_features [Down "A" 0; Down "B" 10; Up "A" 15] = Ok (intervals, holds) ∧
    Forall (Qle 0) intervals ∧
    loop_body (∅, [], Some 10, {[ "A" := 10 ]}) (Up "A" 5) = Ok (∅, [], Some 10, ∅) ∧
    loop loop_init ([Down "A" 10] ++ Up "A" 5 :: [Up "A" 20])
    = loop (∅, [], Some 10, ∅) [Up "A" 20].
Proof.
  destruct (C1_durations_nonneg [Down "A" 0; Down "B" 10; Up "A" 15])
    as (intervals & holds & Hrun & _ & Hintervals & Hstep & Hplace).
  exists intervals, holds. split; [exact Hrun|]. split; [|split].
  - apply Hintervals. reflexivity.
  - etrans; [apply (Hstep (∅, [], Some 10, {[ "A" := 10 ]}) "A" 10 5)|].
    + vm_compute. reflexivity.
    + reflexivity.
    + vm_compute. reflexivity.
  - etrans;
      [apply (Hplace [Down "A" 10] [Up "A" 20] (∅, [], Some 10, {[ "A" := 10 ]}) "A" 10 5)|].
    + vm_compute. reflexivity.
    + vm_compute. reflexivity.
    + reflexivity.
    + vm_compute. reflexivity.
Defined.

(** C2: on [[Down(A,0), Down(A,5), Up(A,8)]], for any key [A], the hold
    recorded for [A] is [8 - 5 = 3] and nothing else is recorded: the second
    press overwrites the first, which contributes nothing. The same holds for
    any three timestamps: the hold is taken against the second press. *)
Theorem C2_repress_later_press_wins (A : string) :
  compute_round_features [Down A 0; Down A 5; Up A 8] = Ok ([5], {[ A := [3] ]}) ∧
  ∀ t0 t1 t2,
    compute_round_features [Down A t0; Down A t1; Up A t2] =
    Ok ([t1 - t0], if Qle_bool 0 (t2 - t1) then {[ A := [t2 - t1] ]} else ∅).
Proof.
  assert (∀ t0 t1 t2,
    compute_round_features [Down A t0; Down A t1; Up A t2] =
    Ok ([t1 - t0], if Qle_bool 0 (t2 - t1) then {[ A := [t2 - t1] ]} else ∅)) as Hgen.
  { intros t0 t1 t2. rewrite compute_round_features_foldl.
    unfold loop_init, loop_next, intervals_of, holds_of; simpl.
    rewrite lookup_insert_eq.
    destruct (Qle_bool 0 (t2 - t1)); simpl; [|done].
    unfold defaultdict_append, defaultdict_get. rewrite lookup_empty. simpl.
    by rewrite insert_empty. }
  split; [|exact Hgen].
  rewrite Hgen. reflexivity.
Qed.

(** C3: on [[Down(A,0), Down(B,10), Up(A,15), Up(B,25)]], for any two distinct
    keys, the intervals are [[10]] and the hold times [{A: [15], B: [15]}]. *)
Theorem C3_two_keys_scenario (A B : string) :
  A ≠ B →
  compute_round_features [Down A 0; Down B 10; Up A 15; Up B 25] =
  Ok ([10], {[ A := [15]; B := [15] ]}).
Proof.
  intros Hne. rewrite compute_round_features_foldl.
  unfold loop_init, loop_next, intervals_of, holds_of; simpl.
  rewrite lookup_insert_ne, lookup_insert_eq by done. simpl.
  rewrite lookup_delete_ne, lookup_insert_eq by done. simpl.
  unfold defaultdict_append, defaultdict_get.
  rewrite lookup_empty, lookup_insert_ne, lookup_empty by done. simpl.
  f_equal. f_equal. rewrite insert_empty. apply insert_insert_ne. done.
Qed.

(** C3 on the keys [A] and [B] themselves. *)
Lemma C3_two_keys_scenario_witness :
  compute_round_features [Down "A" 0; Down "B" 10; Up "A" 15; Up "B" 25] =
  Ok ([10], {[ "A" := [15]; "B" := [15] ]}).
Proof. apply C3_two_keys_scenario. discriminate. Defined.

(** C4: [compute_round_features] raises on no event sequence; an [Up] event
    whose key has no open press leaves every variable of the loop as it was,
    so that the output is the one of the sequence without that event; and
    [[Up(C,5)]] alone gives no interval and no hold time. *)
Theorem C4_orphan_release_ignored :
  (∀ events, ∃ out, compute_round_features events = Ok out) ∧
  (∀ st k t, open_of st !! k = None → loop_body st (Up k t) = Ok st) ∧
  (∀ before after st k t,
     loop loop_init before = Ok st →
     open_of st !! k = None →
     compute_round_features (before ++ Up k t :: after)
     = compute_round_features (before ++ after)) ∧
  (∀ C, compute_round_features [Up C 5] = Ok ([], ∅)).
Proof.
  assert (∀ st k t, open_of st !! k = None → loop_next st (Up k t) = st) as Hnext.
  { intros [[[hs ivs] last] opn] k t Hopen. unfold open_of in Hopen; simpl in Hopen.
    unfold loop_next; simpl. by rewrite Hopen. }
  split; [|split; [|split]].
  - intros events. eexists. apply compute_round_features_foldl.
  - intros st k t Hopen. by rewrite loop_body_next, Hnext.
  - intros before after st k t Hloop Hopen.
    rewrite loop_foldl in Hloop. injection Hloop as <-.
    rewrite !compute_round_features_foldl, !foldl_app. simpl.
    by rewrite Hnext.
  - intros C. rewrite compute_round_features_foldl.
    unfold loop_init, loop_next, intervals_of, holds_of; simpl.
    by rewrite lookup_empty.
Qed.

(** C4 on a release of a key that was never pressed, and on a second release
    of a key already released. *)
Lemma C4_orphan_release_ignored_witness :
  loop_body (∅, [7], Some 7, {[ "A" := 7 ]}) (Up "C" 9) = Ok (∅, [7], Some 7, {[ "A" := 7 ]}) ∧
  compute_round_features ([Down "A" 0; Up "A" 2] ++ Up "A" 3 :: [Down "B" 4; Up "B" 7])
  = compute_round_features ([Down "A" 0; Up "A" 2] ++ [Down "B" 4; Up "B" 7]).
Proof.
  destruct C4_orphan_release_ignored as (_ & Hignored & Hwithout & _). split.
  - apply Hignored. vm_compute. reflexivity.
  - eapply Hwithout; vm_compute; reflexivity.
Defined.

(** C9: the number of inter-key intervals is the number of [Down] events minus
    one when there is a [Down] event and zero when there is none; the events
    that are not [Down] events change no interval: without them the intervals
    are the same list. *)
Theorem C9_interval_count (events : list KeyEvent) :
  ∃ intervals holds,
    compute_round_features events = Ok (intervals, holds) ∧
    length intervals =
      (match length (filter (λ ev, is_down ev = true) events) with
       | O => O
       | S n => n
       end) ∧
    ∃ holds',
      compute_round_features (filter (λ ev, is_down ev = true) events)
      = Ok (intervals, holds').
Proof.
  eexists _, _. split; [apply compute_round_features_foldl|]. split.
  - rewrite intervals_foldl. simpl. rewrite gaps_length.
    unfold down_timestamps. rewrite length_map. simpl.
    by destruct (length _).
  - eexists. rewrite compute_round_features_foldl. f_equal. f_equal.
    by rewrite !intervals_foldl, down_timestamps_filter.
Qed.

(** C10: every key of the hold-time mapping that [compute_round_features]
    returns maps to a non-empty list. *)
Theorem C10_holds_nonempty (events : list KeyEvent) :
  ∃ intervals holds,
    compute_round_features events = Ok (intervals, holds) ∧
    ∀ k hs, holds !! k = Some hs → hs ≠ [].
Proof.
  eexists _, _. split; [apply compute_round_features_foldl|].
  apply (foldl_invariant holds_nonempty); auto using holds_nonempty_next, holds_nonempty_init.
Qed.

(** C10 on the key [A] of the scenario of C3. *)
Lemma C10_holds_nonempty_witness :
  ∃ intervals holds,
    compute_round_features [Down "A" 0; Down "B" 10; Up "A" 15; Up "B" 25]
      = Ok (intervals, holds) ∧
    holds !! "A" = Some [15] ∧ [15] ≠ [].
Proof.
  destruct (C10_holds_nonempty [Down "A" 0; Down "B" 10; Up "A" 15; Up "B" 25])
    as (intervals & holds & Hrun & Hnonempty).
  assert (holds !! "A" = Some [15]) as HA.
  { vm_compute in Hrun. injection Hrun as _ <-. vm_compute. reflexivity. }
  exists intervals, holds. split; [exact Hrun|]. split; [exact HA|].
  exact (Hnonempty "A" [15] HA).
Defined.

(** ** The aggregate statistics never raise *)

Lemma summarize_list_summary sqrt lst : summarize_list sqrt lst = Ok (summary sqrt lst).
Proof.
  destruct lst as [|x tl]; [done|].
  unfold summarize_list, summary, statistics.pstdev, statistics.mean; simpl.
  by destruct tl.
Qed.

Lemma mean_singleton (x : Q) : builtins.sum [x] / builtins.len [x] = x.
Proof.
  destruct x as [a b].
  unfold builtins.sum, builtins.len, Qdiv, Qmult, Qplus, Qinv; simpl.
  by rewrite !Z.mul_1_r, Z.mul_0_l, Z.add_0_l, Pos.mul_1_r, Pos.mul_1_l.
Qed.

Lemma dict_comprehension_foldl {A B} (f : A → result B) (g : A → B) :
  (∀ v, f v = Ok (g v)) →
  ∀ its out,
    dict_comprehension f its out = Ok (foldl (λ o kv, <[kv.1 := g kv.2]> o) out its).
Proof.
  intros Hf its. induction its as [|[k v] its IH]; intros out; simpl; [done|].
  rewrite Hf. simpl. apply IH.
Qed.

Lemma foldl_insert_lookup {B} (its : list (string * B)) : ∀ (out : gmap string B) k,
  NoDup its.*1 →
  foldl (λ o kv, <[kv.1 := kv.2]> o) out its !! k =
  match (list_to_map its : gmap string B) !! k with
  | Some b => Some b
  | None => out !! k
  end.
Proof.
  induction its as [|[k0 b0] its IH]; intros out k Hnodup; simpl.
  { by rewrite lookup_empty. }
  apply NoDup_cons in Hnodup as [Hfresh Hnodup].
  rewrite IH by done.
  destruct (decide (k0 = k)) as [->|Hne].
  - rewrite lookup_insert_eq.
    rewrite (not_elem_of_list_to_map_1 _ _ Hfresh). by rewrite lookup_insert_eq.
  - rewrite !lookup_insert_ne by done. done.
Qed.

Lemma dict_comprehension_items {A B} (f : A → result B) (g : A → B) (d : gmap string A) :
  (∀ v, f v = Ok (g v)) →
  dict_comprehension f (items d) ∅ = Ok (g <$> d).
Proof.
  intros Hf. rewrite (dict_comprehension_foldl f g Hf). f_equal.
  apply map_eq. intros k. unfold items.
  assert (foldl (λ o (kv : string * A), <[kv.1 := g kv.2]> o) ∅ (map_to_list d) =
          foldl (λ o (kv : string * B), <[kv.1 := kv.2]> o) ∅ (prod_map id g <$> map_to_list d))
    as ->.
  { generalize (∅ : gmap string B).
    induction (map_to_list d) as [|[k0 v0] l IH]; intros out; simpl; [done|]. apply IH. }
  rewrite foldl_insert_lookup.
  - rewrite list_to_map_fmap, list_to_map_to_list, lookup_fmap, lookup_empty.
    by destruct (d !! k).
  - rewrite <- list_fmap_compose.
    assert ((fst ∘ prod_map id g <$> map_to_list d) = (map_to_list d).*1) as ->.
    { apply list_fmap_ext. by intros ? [? ?]. }
    apply NoDup_fst_map_to_list.
Qed.

Lemma extend_items_lookup (its : list (string * list Q)) : ∀ (acc : gmap string (list Q)) k,
  NoDup its.*1 →
  foldl (λ acc '(k, holds), defaultdict_extend acc k holds) acc its !! k =
  match (list_to_map its : gmap string (list Q)) !! k with
  | Some holds => Some (defaultdict_get acc k ++ holds)
  | None => acc !! k
  end.
Proof.
  induction its as [|[k0 h0] its IH]; intros acc k Hnodup; simpl.
  { by rewrite lookup_empty. }
  apply NoDup_cons in Hnodup as [Hfresh Hnodup].
  rewrite IH by done. unfold defaultdict_extend, defaultdict_get.
  destruct (decide (k0 = k)) as [->|Hne].
  - rewrite lookup_insert_eq.
    rewrite (not_elem_of_list_to_map_1 _ _ Hfresh). by rewrite lookup_insert_eq.
  - rewrite !lookup_insert_ne by done. done.
Qed.

Lemma extend_round_lookup (acc : gmap string (list Q)) (d : gmap string (list Q)) k :
  foldl (λ acc '(k, holds), defaultdict_extend acc k holds) acc (items d) !! k =
  match d !! k with
  | Some holds => Some (defaultdict_get acc k ++ holds)
  | None => acc !! k
  end.
Proof.
  unfold items. rewrite extend_items_lookup by apply NoDup_fst_map_to_list.
  by rewrite list_to_map_to_list.
Qed.

Lemma all_holds_no_key k all_rounds :
  has_key k all_rounds = false → all_holds k all_rounds = [].
Proof.
  unfold has_key, all_holds, contains, defaultdict_get.
  induction all_rounds as [|r all_rounds IH]; simpl; [done|].
  intros [Hr Hrest]%orb_false_elim. rewrite IH by done.
  apply bool_decide_eq_false_1 in Hr.
  destruct (key_hold_times r !! k); [|done]. by destruct Hr.
Qed.

Lemma report_loop all_rounds : ∀ out_rounds all_intervals aggregate_key_holds,
  ∃ holds,
    foldl report_body (out_rounds, all_intervals, aggregate_key_holds) all_rounds =
    (out_rounds ++ all_rounds,
     all_intervals ++ concat (map inter_key_intervals all_rounds),
     holds) ∧
    ∀ k, holds !! k =
         if has_key k all_rounds
         then Some (defaultdict_get aggregate_key_holds k ++ all_holds k all_rounds)
         else aggregate_key_holds !! k.
Proof.
  induction all_rounds as [|r all_rounds IH]; intros out_rounds all_intervals acc; simpl.
  { eexists. split; [by rewrite !app_nil_r|done]. }
  edestruct IH as (holds & -> & Hholds). exists holds. split.
  { unfold asdict. by rewrite <- !app_assoc. }
  intros k. rewrite Hholds. clear Hholds IH.
  change (all_holds k (r :: all_rounds))
    with (defaultdict_get (key_hold_times r) k ++ all_holds k all_rounds).
  unfold defaultdict_get at 1 2 3. rewrite !extend_round_lookup.
  unfold contains, defaultdict_get.
  destruct (key_hold_times r !! k) as [hs|] eqn:Hk; simpl.
  - destruct (has_key k all_rounds) eqn:Hrest; [by rewrite <- app_assoc|].
    by rewrite all_holds_no_key, app_nil_r.
  - done.
Qed.

(** ** The claims on the aggregate statistics *)

(** C5: [summarize_list] returns [{count: 0}] on the empty list and
    [{count: 1, mean: x, stdev: 0.0, min: x, max: x}] on [[x]]; on a list of
    two elements or more its [stdev] is the population standard deviation,
    the square root of the sum of the squared deviations from the mean
    divided by the count (on [[0, 2]] it is the root of a number equal to 1;
    dividing by the count minus one gives 2). *)
Theorem C5_summarize_list (sqrt : Q → Q) :
  summarize_list sqrt [] = Ok (CountOnly 0) ∧
  (∀ x, summarize_list sqrt [x] = Ok (Stats 1 x 0 x x)) ∧
  (∀ x y tl,
     let lst := x :: y :: tl in
     let mean := builtins.sum lst / builtins.len lst in
     ∃ min max,
       summarize_list sqrt lst =
       Ok (Stats (length lst) mean
                 (sqrt (builtins.sum (map (λ v, (v - mean) * (v - mean)) lst)
                        / inject_Z (Z.of_nat (length lst))))
                 min max)) ∧
  (∃ mean variance,
     summarize_list sqrt [0; 2] = Ok (Stats 2 mean (sqrt variance) 0 2) ∧
     mean == 1 ∧ variance == 1).
Proof.
  split; [done|]. split; [|split].
  - intros x. rewrite summarize_list_summary. unfold summary.
    rewrite mean_singleton. done.
  - intros x y tl lst mean. rewrite summarize_list_summary.
    eexists _, _. reflexivity.
  - rewrite summarize_list_summary. eexists _, _. split; [reflexivity|]. done.
Qed.

(** C6: [make_json_report] raises on no sequence of rounds; its aggregate of
    the intervals is [summarize_list] of the concatenation of the rounds'
    intervals; its aggregate of the hold times has exactly the keys of the
    rounds, each with [summarize_list] of the concatenation of that key's hold
    times over the rounds; the report holds the rounds as they were given, so
    that computing the report again from the rounds it holds gives the same
    report. *)
Theorem C6_aggregate_of_concatenation (sqrt : Q → Q) {M : Type}
    (all_rounds : list RoundResult) (metadata : M) :
  ∃ out,
    make_json_report sqrt all_rounds metadata = Ok out ∧
    Ok (Aggregate.inter_key_intervals (aggregate out)) =
      summarize_list sqrt (concat (map inter_key_intervals all_rounds)) ∧
    (∀ k, Ok <$> Aggregate.key_hold_times (aggregate out) !! k =
          if has_key k all_rounds
          then Some (summarize_list sqrt (all_holds k all_rounds))
          else None) ∧
    rounds out = all_rounds ∧
    make_json_report sqrt (rounds out) metadata = Ok out.
Proof.
  assert (∃ out,
    make_json_report sqrt all_rounds metadata = Ok out ∧
    Ok (Aggregate.inter_key_intervals (aggregate out)) =
      summarize_list sqrt (concat (map inter_key_intervals all_rounds)) ∧
    (∀ k, Ok <$> Aggregate.key_hold_times (aggregate out) !! k =
          if has_key k all_rounds
          then Some (summarize_list sqrt (all_holds k all_rounds))
          else None) ∧
    rounds out = all_rounds) as (out & Hrun & Hintervals & Hholds & Hrounds).
  { unfold make_json_report.
    destruct (report_loop all_rounds [] [] ∅) as (holds & -> & Hholds).
    rewrite summarize_list_summary. simpl.
    rewrite (dict_comprehension_items _ (summary sqrt)) by apply summarize_list_summary.
    simpl. eexists. split; [reflexivity|]. simpl.
    split; [by rewrite summarize_list_summary|]. split; [|done].
    intros k. rewrite lookup_fmap, Hholds, lookup_empty.
    destruct (has_key k all_rounds); simpl; [|done].
    by rewrite summarize_list_summary. }
  exists out. repeat split; try done.
  by rewrite Hrounds.
Qed.

(** ** The claim on the anonymizer *)

Lemma be_bytes_range n x : Forall (λ b, 0 <= b < 256)%Z (sha256.be_bytes n x).
Proof.
  unfold sha256.be_bytes. apply Forall_forall. intros b Hb.
  apply list_elem_of_In, in_map_iff in Hb as (i & <- & _).
  apply Z.mod_pos_bound. lia.
Qed.

Lemma digest_length msg : length (sha256.digest msg) = 32%nat.
Proof.
  unfold sha256.digest.
  by destruct (sha256.blocks _ _ _) as [[[[[[[h0 h1] h2] h3] h4] h5] h6] h7].
Qed.

Lemma digest_range msg : Forall (λ b, 0 <= b < 256)%Z (sha256.digest msg).
Proof.
  unfold sha256.digest.
  destruct (sha256.blocks _ _ _) as [[[[[[[h0 h1] h2] h3] h4] h5] h6] h7].
  apply Forall_concat, Forall_forall. intros bs Hbs.
  apply list_elem_of_In, in_map_iff in Hbs as (h & <- & _). apply be_bytes_range.
Qed.

Lemma hex_length bs : String.length (sha256.hex bs) = (2 * length bs)%nat.
Proof. induction bs as [|b bs IH]; simpl; [done|]. rewrite IH. lia. Qed.

Lemma hex_digit_is_hex n : (0 <= n < 16)%Z → is_hex_digit (sha256.hex_digit n) = true.
Proof.
  intros Hn.
  assert (∃ i : nat, (i < 16)%nat ∧ n = Z.of_nat i) as (i & Hi & ->).
  { exists (Z.to_nat n). lia. }
  rewrite <- (Nat2Z.id i) in Hi. unfold sha256.hex_digit.
  rewrite Nat2Z.id in *.
  do 16 (destruct i as [|i]; [reflexivity|]). lia.
Qed.

Lemma hex_is_hex bs :
  Forall (λ b, 0 <= b < 256)%Z bs →
  Forall (λ c, is_hex_digit c = true) (list_ascii_of_string (sha256.hex bs)).
Proof.
  induction 1 as [|b bs Hb _ IH]; simpl; [constructor|].
  constructor; [|constructor; [|done]]; apply hex_digit_is_hex.
  - split; [apply Z.div_pos; lia|apply Z.div_lt_upper_bound; lia].
  - apply Z.mod_pos_bound. lia.
Qed.

(** The model of SHA-256 on the test vectors of FIPS 180-4. *)
Example sha256_abc :
  sha256.hexdigest (bytes_of_string "abc")
  = "ba7816bf8f01cfea414140de5dae2223b00361a396177a9cb410ff61f20015ad".
Proof. vm_compute. reflexivity. Qed.

Example sha256_two_blocks :
  sha256.hexdigest
    (bytes_of_string "abcdbcdecdefdefgefghfghighijhijkijkljklmklmnlmnomnopnopq")
  = "248d6a61d20638b8e5c026930c3e6039a33ce45964ff2167f6ecedd419db06c1".
Proof. vm_compute. reflexivity. Qed.

Example hash_key_salted :
  _hash_key (mkKeystrokeCapture "salt" true [] ∅) "a"
  = Ok "c35b7f012eddce4fe5ea48ba3f9dcc887f77acd414b5ff7f4e9f337dba49da0c".
Proof. vm_compute. reflexivity. Qed.

(** A byte other than [ED] starts no surrogate. *)
Lemma has_surrogate_cons (c : ascii) (s : string) :
  (N_of_ascii c =? 0xED)%N = false → has_surrogate (String c s) = has_surrogate s.
Proof.
  intros Hc. destruct s as [|d s]; [done|].
  change (surrogate_start c d || has_surrogate (String d s) = has_surrogate (String d s)).
  unfold surrogate_start. by rewrite Hc.
Qed.

(** No surrogate straddles a colon: the string before it and the string after
    it are searched apart. *)
Lemma has_surrogate_colon (s1 s2 : string) :
  has_surrogate (s1 +:+ String ":" s2) = has_surrogate s1 || has_surrogate s2.
Proof.
  induction s1 as [|c s1 IH].
  { change (has_surrogate (String ":" s2) = has_surrogate s2).
    by apply has_surrogate_cons. }
  destruct s1 as [|d s1].
  - change (surrogate_start c ":" || has_surrogate (String ":" s2) = has_surrogate s2).
    rewrite has_surrogate_cons by done.
    unfold surrogate_start. by rewrite andb_false_r.
  - change (surrogate_start c d || has_surrogate (String d s1 +:+ String ":" s2)
            = surrogate_start c d || has_surrogate (String d s1) || has_surrogate s2).
    by rewrite IH, orb_assoc.
Qed.

Lemma has_surrogate_message (salt key_name : string) :
  has_surrogate (salt ++ "::" ++ key_name) = has_surrogate salt || has_surrogate key_name.
Proof.
  change (has_surrogate (salt +:+ String ":" (String ":" key_name))
          = has_surrogate salt || has_surrogate key_name).
  rewrite has_surrogate_colon. by rewrite has_surrogate_cons.
Qed.

Lemma hexdigest_is_digest msg : is_hex_digest (sha256.hexdigest msg) = true.
Proof.
  unfold is_hex_digest, sha256.hexdigest.
  rewrite hex_length, digest_length. simpl.
  apply forallb_forall. intros c Hc.
  pose proof (hex_is_hex _ (digest_range msg)) as Hall.
  rewrite Forall_forall in Hall. by apply Hall, list_elem_of_In.
Qed.

Lemma hash_key_cases self key_name :
  _hash_key self key_name =
    (if negb (anonymize self) then Ok key_name
     else if has_surrogate (salt self) || has_surrogate key_name
          then Raise UnicodeEncodeError
          else Ok (sha256.hexdigest (bytes_of_string (salt self ++ "::" ++ key_name)))).
Proof.
  unfold _hash_key, encode_utf8. destruct (anonymize self); simpl; [|done].
  rewrite has_surrogate_message.
  by destruct (has_surrogate (salt self) || has_surrogate key_name).
Qed.

Lemma hash_key_is_digest self key_name identifier :
  anonymize self = true → _hash_key self key_name = Ok identifier →
  is_hex_digest identifier = true.
Proof.
  intros Hanon. rewrite hash_key_cases, Hanon. simpl.
  destruct (has_surrogate (salt self) || has_surrogate key_name); [done|].
  intros [= <-]. apply hexdigest_is_digest.
Qed.

Lemma hash_key_same_session self self' key_name :
  salt self' = salt self → anonymize self' = anonymize self →
  _hash_key self' key_name = _hash_key self key_name.
Proof. unfold _hash_key. by intros -> ->. Qed.

(** C7, as the claim states it, fails: [_hash_key] is not total. With
    anonymization on and the label ["\ud800"], a [str] of one surrogate code
    point, the encoding to UTF-8 raises [UnicodeEncodeError]. *)
Lemma C7_unencodable_label_raises :
  _hash_key (mkKeystrokeCapture "5a17" true [] ∅)
            (String "237" (String "160" (String "128" EmptyString)))
  = Raise UnicodeEncodeError.
Proof. vm_compute. reflexivity. Qed.

(** C7 (amended): [_hash_key] is a function of the salt, the anonymization
    flag and the label alone (what the recorder holds plays no part). With
    anonymization on it raises [UnicodeEncodeError] when the salt or the label
    holds a surrogate code point, and otherwise returns the hexadecimal
    SHA-256 digest of [salt + "::" + label], 64 hexadecimal digits whatever
    the label; with anonymization off it returns the label, whatever the
    label. The digests of two salted labels, of one block and of two blocks of
    SHA-256, are the ones [hashlib] gives. *)
Theorem C7_hash_key (self : KeystrokeCapture) (key_name : string) :
  _hash_key self key_name =
    (if negb (anonymize self) then Ok key_name
     else if has_surrogate (salt self) || has_surrogate key_name
          then Raise UnicodeEncodeError
          else Ok (sha256.hexdigest (bytes_of_string (salt self ++ "::" ++ key_name)))) ∧
  (∀ identifier,
     anonymize self = true → _hash_key self key_name = Ok identifier →
     is_hex_digest identifier = true) ∧
  (∀ self',
     salt self' = salt self → anonymize self' = anonymize self →
     _hash_key self' key_name = _hash_key self key_name) ∧
  _hash_key (mkKeystrokeCapture "0123456789abcdef0123456789abcdef" true [] ∅) "Key.space"
    = Ok "21a4ba4b0d1ea533b0fc6da9f7ab139bbd1b981014f49780991e0209b221d816" ∧
  _hash_key (mkKeystrokeCapture "0123456789abcdef0123456789abcdef" true [] ∅)
            "the quick brown fox jumps over the lazy dog"
    = Ok "7e8db4cb8180669c69bf563f39a50acaf3fc9eccb148c2717026f206b677f063".
Proof.
  split; [apply hash_key_cases|].
  split; [intros identifier; apply hash_key_is_digest|].
  split; [intros self'; apply hash_key_same_session|].
  split; vm_compute; reflexivity.
Qed.

(** C7 on the label ["a"] under the salt ["5a17"]: the identifier is a digest,
    and a recorder of the same salt that holds an event gives the same one. *)
Lemma C7_hash_key_witness :
  ∃ identifier,
    _hash_key (mkKeystrokeCapture "5a17" true [] ∅) "a" = Ok identifier ∧
    is_hex_digest identifier = true ∧
    _hash_key (mkKeystrokeCapture "5a17" true [Down "k" 1] {[ "k" := 1 ]}) "a"
    = Ok identifier.
Proof.
  destruct (C7_hash_key (mkKeystrokeCapture "5a17" true [] ∅) "a")
    as (_ & Hdigest & Hpure & _).
  eexists. split; [vm_compute; reflexivity|]. split.
  - apply Hdigest; [reflexivity|vm_compute; reflexivity].
  - rewrite (Hpure (mkKeystrokeCapture "5a17" true [Down "k" 1] {[ "k" := 1 ]}))
      by reflexivity.
    vm_compute. reflexivity.
Defined.

(** ** The claim on the rounds of [main] *)

Lemma round_body_ok perf_counter tick round_idx args_phrase round_events :
  ∃ r,
    round_body perf_counter tick round_idx args_phrase round_events = Ok (S (S tick), r) ∧
    start_time r = perf_counter tick ∧
    end_time r = perf_counter (S tick) ∧
    duration r = end_time r - start_time r.
Proof.
  unfold round_body. rewrite compute_round_features_foldl. simpl.
  eexists. split; [reflexivity|]. done.
Qed.

(** C8: when the clock does not run backwards, every [RoundResult] that the
    rounds of [main] construct has [duration = end_time - start_time] and
    [duration >= 0]; one is constructed for each round. *)
Theorem C8_round_duration (perf_counter : nat → Q) :
  (∀ i, perf_counter i <= perf_counter (S i)) →
  ∀ captured tick round_idx args_phrase all_rounds,
    ∃ new_rounds,
      rounds_loop perf_counter tick round_idx args_phrase captured all_rounds
        = Ok (all_rounds ++ new_rounds) ∧
      length new_rounds = length captured ∧
      Forall (λ r, duration r = end_time r - start_time r ∧ 0 <= duration r) new_rounds.
Proof.
  intros Hclock captured.
  induction captured as [|round_events captured IH];
    intros tick round_idx args_phrase all_rounds; simpl.
  { exists []. by rewrite app_nil_r. }
  destruct (round_body_ok perf_counter tick round_idx args_phrase round_events)
    as (r & -> & Hstart & Hend & Hduration). simpl.
  destruct (IH (S (S tick)) (round_idx + 1)%Z args_phrase (all_rounds ++ [r]))
    as (new_rounds & -> & Hlength & Hall).
  exists (r :: new_rounds). split; [by rewrite <- app_assoc|].
  split; [by rewrite <- Hlength|].
  constructor; [|done]. split; [done|].
  rewrite Hduration, Hstart, Hend. apply Qle_minus_nonneg, Hclock.
Qed.

(** C8 on two rounds, for the clock whose [n]-th reading is [n]. *)
Lemma C8_round_duration_witness :
  ∃ new_rounds,
    rounds_loop (λ n, inject_Z (Z.of_nat n)) 0 1 "the quick brown fox"
                [[Down "t" 0; Up "t" 1]; []] []
      = Ok ([] ++ new_rounds) ∧
    length new_rounds = 2%nat ∧
    Forall (λ r, duration r = end_time r - start_time r ∧ 0 <= duration r) new_rounds.
Proof.
  apply (C8_round_duration (λ n, inject_Z (Z.of_nat n))).
  intros i. rewrite <- Zle_Qle. lia.
Defined.

(** ** More on the feature extractor *)

Lemma loop_next_down st k t :
  loop_next st (Down k t) =
  (holds_of st,
   match last_of st with
   | Some l => intervals_of st ++ [t - l]
   | None => intervals_of st
   end,
   Some t, <[k := t]> (open_of st)).
Proof. by destruct st as [[[hs ivs] lst] opn]. Qed.

Lemma loop_next_up_open st k t pressed :
  open_of st !! k = Some pressed →
  loop_next st (Up k t) =
  (if Qle_bool 0 (t - pressed) then defaultdict_append (holds_of st) k (t - pressed)
   else holds_of st,
   intervals_of st, last_of st, delete k (open_of st)).
Proof.
  destruct st as [[[hs ivs] lst] opn]. unfold open_of, loop_next; simpl.
  by intros ->.
Qed.

(** The last press seen is the last [Down] timestamp. *)
Lemma last_foldl events : ∀ st,
  last_of (foldl loop_next st events) =
  match last (down_timestamps events) with
  | Some t => Some t
  | None => last_of st
  end.
Proof.
  unfold down_timestamps, is_down.
  induction events as [|ev events IH] using rev_ind; intros st; [done|].
  rewrite foldl_snoc_next, filter_app, map_app.
  destruct (foldl loop_next st events) as [[[hs ivs] lst] opn] eqn:Hst.
  specialize (IH st). rewrite Hst in IH. unfold last_of in IH; simpl in IH.
  unfold loop_next, last_of; simpl. rewrite filter_cons, filter_nil.
  destruct (bool_decide (event ev = "down")) eqn:Hdown; simpl.
  - by rewrite last_snoc.
  - rewrite app_nil_r.
    destruct (bool_decide (event ev = "up")); simpl; [|done].
    by destruct (opn !! key_hash ev).
Qed.

Lemma sum_foldl (l : list Q) : ∀ acc, foldl Qplus acc l == acc + builtins.sum l.
Proof.
  unfold builtins.sum.
  induction l as [|x l IH]; intros acc; simpl.
  { by rewrite Qplus_0_r. }
  rewrite IH, (IH (0 + x)). ring.
Qed.

Lemma sum_cons (x : Q) l : builtins.sum (x :: l) == x + builtins.sum l.
Proof. unfold builtins.sum at 1. simpl. rewrite sum_foldl. ring. Qed.

Lemma foldl_no_down events :
  Forall (λ ev, event ev ≠ "down") events → foldl loop_next loop_init events = loop_init.
Proof.
  induction events as [|ev events IH] using rev_ind; intros Hall; [done|].
  apply Forall_app in Hall as [Hevents Hev]. apply Forall_inv in Hev.
  rewrite foldl_snoc_next, IH by done.
  unfold loop_next, loop_init; simpl.
  rewrite bool_decide_eq_false_2 by done.
  destruct (bool_decide (event ev = "up")); [|done]. by rewrite lookup_empty.
Qed.

Lemma loop_next_other_key k st ev :
  key_hash ev ≠ k →
  holds_of (loop_next st ev) !! k = holds_of st !! k ∧
  open_of (loop_next st ev) !! k = open_of st !! k.
Proof.
  intros Hne. destruct st as [[[hs ivs] lst] opn].
  unfold holds_of, open_of, loop_next; simpl.
  destruct (bool_decide (event ev = "down")); simpl.
  { by rewrite lookup_insert_ne. }
  destruct (bool_decide (event ev = "up")); simpl; [|done].
  destruct (opn !! key_hash ev) as [pressed|]; simpl; [|done].
  rewrite lookup_delete_ne by done. split; [|done].
  destruct (Qle_bool 0 (timestamp ev - pressed)); [|done].
  by rewrite defaultdict_append_lookup, decide_False.
Qed.

Lemma agree_on_same_key k st st' ev :
  key_hash ev = k →
  agree_on k st st' → agree_on k (loop_next st ev) (loop_next st' ev).
Proof.
  intros <-.
  destruct st as [[[hs ivs] lst] opn], st' as [[[hs' ivs'] lst'] opn'].
  unfold agree_on, holds_of, open_of, loop_next; simpl. intros [Hholds Hopen].
  destruct (bool_decide (event ev = "down")); simpl.
  { by rewrite !lookup_insert_eq. }
  destruct (bool_decide (event ev = "up")); simpl; [|done].
  rewrite Hopen. destruct (opn' !! key_hash ev) as [pressed|] eqn:Hopen'; simpl;
    [|split; congruence].
  split; [|by rewrite !lookup_delete_eq].
  destruct (Qle_bool 0 (timestamp ev - pressed)); [|done].
  rewrite !defaultdict_append_lookup, !decide_True by done.
  unfold defaultdict_get. by rewrite Hholds.
Qed.

Lemma agree_on_events_of_key k events : ∀ st st',
  agree_on k st st' →
  agree_on k (foldl loop_next st events) (foldl loop_next st' (events_of_key k events)).
Proof.
  unfold events_of_key.
  induction events as [|ev events IH]; intros st st' Hagree; simpl; [done|].
  rewrite filter_cons. case_decide as Hk; simpl.
  - by apply IH, agree_on_same_key.
  - apply IH. destruct Hagree as [Hholds Hopen].
    destruct (loop_next_other_key k st ev Hk) as [Hholds' Hopen'].
    split; congruence.
Qed.

Lemma nondecreasing_snoc_bound ts : ∀ x,
  nondecreasing (ts ++ [x]) = true → Forall (λ y, y <= x) ts.
Proof.
  induction ts as [|t ts IH]; intros x Hsorted; [constructor|].
  destruct ts as [|t' ts].
  - simpl in Hsorted. apply andb_prop in Hsorted as [Hle _].
    repeat constructor. by apply Qle_bool_iff.
  - change (nondecreasing (t :: (t' :: ts) ++ [x]))
      with (Qle_bool t t' && nondecreasing ((t' :: ts) ++ [x])) in Hsorted.
    apply andb_prop in Hsorted as [Hle Hrest]. apply Qle_bool_iff in Hle.
    specialize (IH x Hrest). constructor; [|done].
    apply Forall_inv in IH. by apply Qle_trans with t'.
Qed.

Lemma nondecreasing_snoc ts x :
  nondecreasing ts = true → Forall (λ y, y <= x) ts → nondecreasing (ts ++ [x]) = true.
Proof.
  induction ts as [|t ts IH]; intros Hsorted Hbound; [done|].
  apply Forall_cons in Hbound as [Ht Hbound].
  destruct ts as [|t' ts].
  - simpl. rewrite andb_true_r. by apply Qle_bool_iff.
  - change (nondecreasing (t :: (t' :: ts) ++ [x]))
      with (Qle_bool t t' && nondecreasing ((t' :: ts) ++ [x])).
    simpl in Hsorted. apply andb_prop in Hsorted as [Hle Hrest].
    apply andb_true_intro. split; [done|]. by apply IH.
Qed.

(** An open press was recorded at the timestamp of one of the events. *)
Lemma open_bounded (b : Q) events :
  Forall (λ ev, timestamp ev <= b) events →
  ∀ k pressed, open_of (foldl loop_next loop_init events) !! k = Some pressed → pressed <= b.
Proof.
  induction events as [|ev events IH] using rev_ind; intros Hall k pressed.
  { unfold open_of; simpl. by rewrite lookup_empty. }
  apply Forall_app in Hall as [Hevents Hev]. apply Forall_inv in Hev.
  rewrite foldl_snoc_next.
  destruct (foldl loop_next loop_init events) as [[[hs ivs] lst] opn] eqn:Hst.
  specialize (IH Hevents). unfold open_of in IH; simpl in IH.
  unfold open_of, loop_next; simpl.
  destruct (bool_decide (event ev = "down")); simpl.
  { rewrite lookup_insert. case_decide; [by intros [= <-]|apply IH]. }
  destruct (bool_decide (event ev = "up")); simpl; [|apply IH].
  destruct (opn !! key_hash ev); simpl; [|apply IH].
  rewrite lookup_delete. case_decide; [done|apply IH].
Qed.

(** The recorded holds of a key and its open press, against the numbers of
    its [Down] and [Up] events. *)
Lemma loop_next_counts st ev :
  let n := length (defaultdict_get (holds_of st) (key_hash ev)) in
  let o := open_count st (key_hash ev) in
  let n' := length (defaultdict_get (holds_of (loop_next st ev)) (key_hash ev)) in
  let o' := open_count (loop_next st ev) (key_hash ev) in
  (event ev = "down" → n' = n ∧ o' = 1%nat) ∧
  (event ev = "up" → (n' + o' ≤ n + o)%nat ∧ (n' ≤ n + 1)%nat) ∧
  (event ev ≠ "down" → event ev ≠ "up" → n' = n ∧ o' = o).
Proof.
  destruct st as [[[hs ivs] lst] opn].
  unfold open_count, defaultdict_get, holds_of, open_of, loop_next; simpl.
  destruct (bool_decide (event ev = "down")) eqn:Hdown; simpl.
  { apply bool_decide_eq_true_1 in Hdown. rewrite lookup_insert_eq.
    split; [done|]. split; [by rewrite Hdown|done]. }
  apply bool_decide_eq_false_1 in Hdown. split; [done|].
  destruct (bool_decide (event ev = "up")) eqn:Hup; simpl.
  2:{ apply bool_decide_eq_false_1 in Hup. split; [done|]. done. }
  apply bool_decide_eq_true_1 in Hup. split; [|by intros _ ?]. intros _.
  destruct (opn !! key_hash ev) as [pressed|] eqn:Hopen; simpl.
  2:{ rewrite Hopen. lia. }
  rewrite lookup_delete_eq.
  destruct (Qle_bool 0 (timestamp ev - pressed)); simpl; [|lia].
  rewrite defaultdict_append_lookup, decide_True by done. simpl.
  unfold defaultdict_get. rewrite length_app. simpl. lia.
Qed.

Lemma holds_count k events :
  (length (defaultdict_get (holds_of (foldl loop_next loop_init events)) k)
   + open_count (foldl loop_next loop_init events) k
     ≤ count_events "down" k events)%nat ∧
  (length (defaultdict_get (holds_of (foldl loop_next loop_init events)) k)
     ≤ count_events "up" k events)%nat.
Proof.
  unfold count_events.
  induction events as [|ev events IH] using rev_ind.
  { unfold open_count, defaultdict_get, holds_of, open_of; simpl.
    rewrite !lookup_empty. simpl. lia. }
  rewrite foldl_snoc_next, !filter_app, !length_app, !filter_cons, !filter_nil.
  destruct IH as [IHdown IHup].
  destruct (decide (key_hash ev = k)) as [<-|Hk].
  2:{ unfold open_count, defaultdict_get.
      destruct (loop_next_other_key k (foldl loop_next loop_init events) ev Hk) as [-> ->].
      unfold open_count, defaultdict_get in IHdown, IHup. lia. }
  destruct (loop_next_counts (foldl loop_next loop_init events) ev)
    as (Hdown & Hup & Hother).
  destruct (decide (event ev = "down")) as [Hd|Hd].
  - destruct (Hdown Hd) as [-> ->].
    rewrite (decide_True (P := event ev = "down" ∧ key_hash ev = key_hash ev)) by done.
    simpl. lia.
  - rewrite (decide_False (P := event ev = "down" ∧ key_hash ev = key_hash ev))
      by (by intros [? _]).
    destruct (decide (event ev = "up")) as [Hu|Hu].
    + destruct (Hup Hu) as [? ?].
      rewrite (decide_True (P := event ev = "up" ∧ key_hash ev = key_hash ev)) by done.
      simpl. lia.
    + destruct (Hother Hd Hu) as [-> ->]. simpl. lia.
Qed.

(** X2: the hold times recorded for a key depend on the events of that key
    alone: they are the ones [compute_round_features] records for it on the
    sequence of its own events. *)
Theorem X2_holds_per_key_independent (events : list KeyEvent) (k : string) :
  ∃ intervals holds intervals' holds',
    compute_round_features events = Ok (intervals, holds) ∧
    compute_round_features (events_of_key k events) = Ok (intervals', holds') ∧
    holds !! k = holds' !! k.
Proof.
  eexists _, _, _, _. split; [apply compute_round_features_foldl|].
  split; [apply compute_round_features_foldl|].
  by apply agree_on_events_of_key.
Qed.

(** X3: a key has at most as many hold times as it has [Down] events, and at
    most as many as it has [Up] events. *)
Theorem X3_holds_bounded_by_events (events : list KeyEvent) (k : string) :
  ∃ intervals holds,
    compute_round_features events = Ok (intervals, holds) ∧
    (length (defaultdict_get holds k) ≤ count_events "down" k events)%nat ∧
    (length (defaultdict_get holds k) ≤ count_events "up" k events)%nat.
Proof.
  eexists _, _. split; [apply compute_round_features_foldl|].
  destruct (holds_count k events) as [Hdown Hup]. split; [lia|done].
Qed.

(** X4: a [Down] event at the end of the sequence, which no [Up] follows,
    adds no hold time; it adds the interval from the [Down] event before it,
    when there is one. *)
Theorem X4_trailing_press_adds_no_hold (events : list KeyEvent) (k : string) (t : Q) :
  ∃ intervals holds,
    compute_round_features events = Ok (intervals, holds) ∧
    compute_round_features (events ++ [Down k t]) =
    Ok (intervals ++ match last (down_timestamps events) with
                     | Some previous => [t - previous]
                     | None => []
                     end,
        holds).
Proof.
  eexists _, _. split; [apply compute_round_features_foldl|].
  rewrite compute_round_features_foldl, foldl_snoc_next, loop_next_down.
  rewrite last_foldl. unfold intervals_of at 1, holds_of at 1. simpl.
  destruct (last (down_timestamps events)); simpl; [done|].
  by rewrite app_nil_r.
Qed.

(** X5: a sequence without any [Down] event (the empty one, or releases
    alone) gives no interval and no hold time. *)
Theorem X5_no_press_no_features (events : list KeyEvent) :
  Forall (λ ev, event ev ≠ "down") events →
  compute_round_features events = Ok ([], ∅).
Proof.
  intros Hall. rewrite compute_round_features_foldl. by rewrite foldl_no_down.
Qed.

(** X5 on three releases and an event of another kind. *)
Lemma X5_no_press_no_features_witness :
  compute_round_features [Up "A" 1; Up "B" 2; mkKeyEvent "repeat" "A" 3; Up "A" 4]
  = Ok ([], ∅).
Proof. apply X5_no_press_no_features. repeat constructor; discriminate. Defined.

(** X6: when the timestamps do not decrease along the sequence, no hold is
    dropped: the release of a key that has an open press records the time
    since that press. *)
Theorem X6_ordered_release_records_hold
    (events : list KeyEvent) (k : string) (t pressed : Q) (st : loop_state) :
  nondecreasing (timestamps (events ++ [Up k t])) = true →
  loop loop_init events = Ok st →
  open_of st !! k = Some pressed →
  compute_round_features (events ++ [Up k t]) =
  Ok (intervals_of st, defaultdict_append (holds_of st) k (t - pressed)).
Proof.
  intros Hsorted Hloop Hopen.
  rewrite loop_foldl in Hloop. injection Hloop as <-.
  rewrite compute_round_features_foldl, foldl_snoc_next.
  rewrite (loop_next_up_open _ k t pressed Hopen).
  assert (pressed <= t) as Hle.
  { apply (open_bounded t events) with k; [|done].
    unfold timestamps in Hsorted. rewrite map_app in Hsorted. simpl in Hsorted.
    apply nondecreasing_snoc_bound in Hsorted.
    apply Forall_forall. intros ev Hev. rewrite Forall_forall in Hsorted.
    apply Hsorted, list_elem_of_In, in_map, list_elem_of_In, Hev. }
  apply Qle_minus_nonneg, Qle_bool_iff in Hle. by rewrite Hle.
Qed.

(** X6 on a press of [A] at 1, a press of [B] at 2 and the release of [A] at 4. *)
Lemma X6_ordered_release_records_hold_witness :
  compute_round_features ([Down "A" 1; Down "B" 2] ++ [Up "A" 4]) =
  Ok ([2 - 1], defaultdict_append ∅ "A" (4 - 1)).
Proof.
  apply (X6_ordered_release_records_hold [Down "A" 1; Down "B" 2] "A" 4 1
           (∅, [2 - 1], Some 2, {[ "A" := 1; "B" := 2 ]})).
  - reflexivity.
  - vm_compute. reflexivity.
  - vm_compute. reflexivity.
Defined.

(** ** The event recorder *)

(** A callback either raises, before it changes anything, or records one
    event under the hashed key at the clock reading of the call. *)
Lemma run_callback_cases perf_counter tick self call :
  (∃ e, run_callback perf_counter tick self call = Raise e) ∨
  (∃ next kind key_h,
     run_callback perf_counter tick self call = Ok (S tick, next) ∧
     (∃ key, _hash_key self (key_name key) = Ok key_h) ∧
     salt next = salt self ∧ anonymize next = anonymize self ∧
     events next = events self ++ [mkKeyEvent kind key_h (perf_counter tick)] ∧
     (bookkeeping_agrees self → bookkeeping_agrees next)).
Proof.
  destruct call as [key|key]; simpl; unfold on_press, on_release;
    destruct (_hash_key self (key_name key)) as [key_h|e] eqn:Hkey; simpl;
    try (left; by eexists).
  - right. eexists _, "down", key_h. split; [reflexivity|]. simpl.
    split; [by exists key|]. repeat split.
    unfold bookkeeping_agrees; simpl. intros <-.
    by rewrite foldl_snoc_next, loop_next_down.
  - right. unfold contains, delitem.
    assert (∃ open_press,
      (if bool_decide (is_Some (_down_timestamps self !! key_h))
       then match _down_timestamps self !! key_h with
            | Some _ => Ok (delete key_h (_down_timestamps self))
            | None => Raise KeyError
            end
       else Ok (_down_timestamps self)) = Ok open_press ∧
      open_press = delete key_h (_down_timestamps self)) as (open_press & -> & ->).
    { destruct (_down_timestamps self !! key_h) eqn:Hk; simpl; eexists; split; try done.
      by rewrite delete_id. }
    simpl. eexists _, "up", key_h. split; [reflexivity|]. simpl.
    split; [by exists key|]. repeat split.
    unfold bookkeeping_agrees; simpl. intros <-.
    rewrite foldl_snoc_next.
    destruct (open_of (foldl loop_next loop_init (events self)) !! key_h)
      as [pressed|] eqn:Hopen.
    + by rewrite (loop_next_up_open _ _ _ pressed Hopen).
    + rewrite delete_id by done.
      destruct (foldl loop_next loop_init (events self)) as [[[hs ivs] lst] opn].
      unfold open_of in *; simpl in *. unfold loop_next; simpl. by rewrite Hopen.
Qed.

(** The listener never raises; it records, for the callbacks that ran, events
    at consecutive readings of the clock. *)
Lemma listener_ok perf_counter calls : ∀ tick self,
  ∃ n self',
    listener perf_counter tick self calls = Ok ((tick + n)%nat, self') ∧
    salt self' = salt self ∧ anonymize self' = anonymize self ∧
    timestamps (events self')
      = timestamps (events self) ++ map perf_counter (seq tick n) ∧
    (anonymize self = true →
     Forall (λ ev, is_hex_digest (key_hash ev) = true) (events self) →
     Forall (λ ev, is_hex_digest (key_hash ev) = true) (events self')) ∧
    (bookkeeping_agrees self → bookkeeping_agrees self').
Proof.
  induction calls as [|call calls IH]; intros tick self.
  { exists 0%nat, self. simpl. by rewrite Nat.add_0_r, app_nil_r. }
  simpl listener.
  destruct (run_callback_cases perf_counter tick self call)
    as [[e ->]|(next & kind & key_h & -> & [key Hkey] & Hsalt & Hanon & Hevents & Hbook)].
  { exists 0%nat, self. simpl. by rewrite Nat.add_0_r, app_nil_r. }
  destruct (IH (S tick) next)
    as (n & self' & -> & Hsalt' & Hanon' & Htimes & Hdigests & Hbook').
  exists (S n), self'. split; [f_equal; f_equal; lia|].
  split; [congruence|]. split; [congruence|]. split; [|split; [|auto]].
  - rewrite Htimes, Hevents. unfold timestamps. rewrite map_app, <- app_assoc. done.
  - intros Hon Hall. apply Hdigests; [congruence|].
    rewrite Hevents. apply Forall_app. split; [done|].
    constructor; [|done]. simpl. by apply (hash_key_is_digest self (key_name key)).
Qed.

Lemma nondecreasing_cons_bound x ts :
  nondecreasing (x :: ts) = true → Forall (Qle x) ts ∧ nondecreasing ts = true.
Proof.
  revert x. induction ts as [|t ts IH]; intros x Hsorted; [by split|].
  simpl in Hsorted. apply andb_prop in Hsorted as [Hle Hrest].
  apply Qle_bool_iff in Hle. split; [|done].
  destruct (IH t Hrest) as [Hbound _]. constructor; [done|].
  eapply Forall_impl; [exact Hbound|]. intros y Hy. by apply Qle_trans with t.
Qed.

Lemma nondecreasing_cons x ts :
  Forall (Qle x) ts → nondecreasing ts = true → nondecreasing (x :: ts) = true.
Proof.
  intros Hbound Hsorted. destruct ts as [|t ts]; [done|].
  apply Forall_inv in Hbound.
  change (Qle_bool x t && nondecreasing (t :: ts) = true).
  apply andb_true_intro. split; [by apply Qle_bool_iff|done].
Qed.

(** The [Down] timestamps of an ordered sequence are ordered. *)
Lemma nondecreasing_down_timestamps events :
  nondecreasing (timestamps events) = true →
  nondecreasing (down_timestamps events) = true.
Proof.
  unfold timestamps, down_timestamps.
  induction events as [|ev events IH]; intros Hsorted; [done|].
  change (map timestamp (ev :: events)) with (timestamp ev :: map timestamp events)
    in Hsorted.
  apply nondecreasing_cons_bound in Hsorted as [Hbound Hsorted].
  rewrite filter_cons. case_decide; [|by apply IH].
  change (nondecreasing (timestamp ev :: map timestamp
            (filter (λ ev, is_down ev = true) events)) = true).
  apply nondecreasing_cons; [|by apply IH].
  apply Forall_forall. intros t Ht. rewrite Forall_forall in Hbound. apply Hbound.
  apply list_elem_of_In, in_map_iff in Ht as (ev' & <- & Hev').
  apply list_elem_of_In, in_map. apply list_elem_of_In in Hev'.
  apply list_elem_of_In. by apply list_elem_of_filter in Hev' as [_ ?].
Qed.

Lemma nondecreasing_clock (perf_counter : nat → Q) :
  (∀ i, perf_counter i <= perf_counter (S i)) →
  ∀ n tick, nondecreasing (map perf_counter (seq tick n)) = true.
Proof.
  intros Hclock n. induction n as [|n IH]; intros tick; [done|].
  simpl. destruct n as [|n]; [done|].
  specialize (IH (S tick)). simpl in IH. simpl.
  apply andb_true_intro. split; [apply Qle_bool_iff, Hclock|done].
Qed.

(** The keys with an open press are keys of the events. *)
Lemma open_keys (P : string → Prop) events :
  Forall (λ ev, P (key_hash ev)) events →
  ∀ k pressed, open_of (foldl loop_next loop_init events) !! k = Some pressed → P k.
Proof.
  induction events as [|ev events IH] using rev_ind; intros Hall k pressed.
  { unfold open_of; simpl. by rewrite lookup_empty. }
  apply Forall_app in Hall as [Hevents Hev]. apply Forall_inv in Hev.
  rewrite foldl_snoc_next.
  destruct (foldl loop_next loop_init events) as [[[hs ivs] lst] opn] eqn:Hst.
  specialize (IH Hevents). unfold open_of in IH; simpl in IH.
  unfold open_of, loop_next; simpl.
  destruct (bool_decide (event ev = "down")); simpl.
  { rewrite lookup_insert. case_decide; [by subst|apply IH]. }
  destruct (bool_decide (event ev = "up")); simpl; [|apply IH].
  destruct (opn !! key_hash ev); simpl; [|apply IH].
  rewrite lookup_delete. case_decide; [done|apply IH].
Qed.

Lemma bookkeeping_agrees_clear self : bookkeeping_agrees (clear self).
Proof. done. Qed.

(** X7: from a cleared recorder on, whatever the presses and releases
    delivered, [_down_timestamps] holds exactly the presses that
    [compute_round_features] still has open after the recorded events. *)
Theorem X7_recorder_bookkeeping (perf_counter : nat → Q) (self : KeystrokeCapture)
    (calls : list callback) (tick : nat) :
  ∃ tick' self' st,
    listener perf_counter tick (clear self) calls = Ok (tick', self') ∧
    loop loop_init (events self') = Ok st ∧
    open_of st = _down_timestamps self'.
Proof.
  destruct (listener_ok perf_counter calls tick (clear self))
    as (n & self' & Hrun & _ & _ & _ & _ & Hbook).
  eexists _, self', _. split; [exact Hrun|]. split; [apply loop_foldl|].
  apply Hbook, bookkeeping_agrees_clear.
Qed.

(** X9: when the clock does not run backwards, the events recorded since a
    [clear] have timestamps that do not decrease, and every inter-key
    interval that [compute_round_features] extracts from them is [>= 0]. *)
Theorem X9_recorded_intervals_nonneg (perf_counter : nat → Q) :
  (∀ i, perf_counter i <= perf_counter (S i)) →
  ∀ (self : KeystrokeCapture) (calls : list callback) (tick : nat),
    ∃ tick' self' intervals holds,
      listener perf_counter tick (clear self) calls = Ok (tick', self') ∧
      nondecreasing (timestamps (events self')) = true ∧
      compute_round_features (events self') = Ok (intervals, holds) ∧
      Forall (Qle 0) intervals.
Proof.
  intros Hclock self calls tick.
  destruct (listener_ok perf_counter calls tick (clear self))
    as (n & self' & Hrun & _ & _ & Htimes & _). simpl in Htimes.
  assert (nondecreasing (timestamps (events self')) = true) as Hsorted.
  { rewrite Htimes. by apply nondecreasing_clock. }
  eexists _, self', _, _. split; [exact Hrun|]. split; [exact Hsorted|].
  split; [apply compute_round_features_foldl|].
  rewrite intervals_foldl. simpl.
  apply gaps_nonneg; [|done]. by apply nondecreasing_down_timestamps.
Qed.

(** X9 on three callbacks, for the clock whose [n]-th reading is [n]. *)
Lemma X9_recorded_intervals_nonneg_witness :
  ∃ tick' self' intervals holds,
    listener (λ n, inject_Z (Z.of_nat n)) 0 (clear (__init__ "5a17" false))
             [Press (mkKey (Some "a") "'a'"); Press (mkKey None "Key.space");
              Release (mkKey (Some "a") "'a'")]
      = Ok (tick', self') ∧
    nondecreasing (timestamps (events self')) = true ∧
    compute_round_features (events self') = Ok (intervals, holds) ∧
    Forall (Qle 0) intervals.
Proof.
  apply (X9_recorded_intervals_nonneg (λ n, inject_Z (Z.of_nat n))).
  intros i. rewrite <- Zle_Qle. lia.
Defined.

(** X10: with anonymization on, every key that the recorder stores since a
    [clear], in its events and in [_down_timestamps], is a string of 64
    hexadecimal digits. *)
Theorem X10_recorder_stores_digests (perf_counter : nat → Q) (self : KeystrokeCapture)
    (calls : list callback) (tick : nat) :
  anonymize self = true →
  ∃ tick' self',
    listener perf_counter tick (clear self) calls = Ok (tick', self') ∧
    Forall (λ ev, is_hex_digest (key_hash ev) = true) (events self') ∧
    ∀ k pressed, _down_timestamps self' !! k = Some pressed → is_hex_digest k = true.
Proof.
  intros Hanon.
  destruct (listener_ok perf_counter calls tick (clear self))
    as (n & self' & Hrun & _ & _ & _ & Hdigests & Hbook).
  assert (Forall (λ ev, is_hex_digest (key_hash ev) = true) (events self')) as Hall.
  { apply Hdigests; [done|]. simpl. constructor. }
  eexists _, self'. split; [exact Hrun|]. split; [exact Hall|].
  rewrite <- (Hbook (bookkeeping_agrees_clear self)).
  by apply open_keys.
Qed.

(** X10 on a press and a release recorded under the salt ["5a17"]. *)
Lemma X10_recorder_stores_digests_witness :
  ∃ tick' self',
    listener (λ n, inject_Z (Z.of_nat n)) 0 (clear (__init__ "5a17" true))
             [Press (mkKey (Some "a") "'a'"); Release (mkKey (Some "a") "'a'")]
      = Ok (tick', self') ∧
    Forall (λ ev, is_hex_digest (key_hash ev) = true) (events self') ∧
    ∀ k pressed, _down_timestamps self' !! k = Some pressed → is_hex_digest k = true.
Proof. apply X10_recorder_stores_digests. reflexivity. Defined.

(** ** More on the aggregate statistics *)

Lemma min_spec tl : ∀ x,
  let m := foldl (λ m y, if Qle_bool m y then m else y) x tl in
  m ∈ x :: tl ∧ m <= x ∧ Forall (Qle m) tl.
Proof.
  induction tl as [|y tl IH]; intros x; simpl.
  { split; [apply list_elem_of_here|]. split; [apply Qle_refl|constructor]. }
  destruct (Qle_bool x y) eqn:Hxy.
  - apply Qle_bool_iff in Hxy. destruct (IH x) as (Hin & Hle & Hall).
    split; [|split; [done|]].
    + apply elem_of_cons in Hin as [->|Hin]; [apply list_elem_of_here|].
      by do 2 apply list_elem_of_further.
    + constructor; [by apply Qle_trans with x|done].
  - assert (y <= x) as Hyx.
    { apply Qlt_le_weak, Qnot_le_lt. intros Hle%Qle_bool_iff. congruence. }
    destruct (IH y) as (Hin & Hle & Hall).
    split; [by apply list_elem_of_further|].
    split; [by apply Qle_trans with y|]. by constructor.
Qed.

Lemma max_spec tl : ∀ x,
  let m := foldl (λ m y, if Qle_bool y m then m else y) x tl in
  m ∈ x :: tl ∧ x <= m ∧ Forall (λ y, y <= m) tl.
Proof.
  induction tl as [|y tl IH]; intros x; simpl.
  { split; [apply list_elem_of_here|]. split; [apply Qle_refl|constructor]. }
  destruct (Qle_bool y x) eqn:Hyx.
  - apply Qle_bool_iff in Hyx. destruct (IH x) as (Hin & Hle & Hall).
    split; [|split; [done|]].
    + apply elem_of_cons in Hin as [->|Hin]; [apply list_elem_of_here|].
      by do 2 apply list_elem_of_further.
    + constructor; [by apply Qle_trans with x|done].
  - assert (x <= y) as Hxy.
    { apply Qlt_le_weak, Qnot_le_lt. intros Hle%Qle_bool_iff. congruence. }
    destruct (IH y) as (Hin & Hle & Hall).
    split; [by apply list_elem_of_further|].
    split; [by apply Qle_trans with y|]. by constructor.
Qed.

Lemma len_cons (x : Q) l : builtins.len (x :: l) == 1 + builtins.len l.
Proof.
  unfold builtins.len. simpl length. rewrite Nat2Z.inj_succ, <- Z.add_1_l.
  by rewrite inject_Z_plus.
Qed.

Lemma len_pos (x : Q) l : 0 < builtins.len (x :: l).
Proof. unfold builtins.len. simpl length. unfold Qlt; simpl. lia. Qed.

Lemma len_nonneg (l : list Q) : 0 <= builtins.len l.
Proof. unfold builtins.len. unfold Qle; simpl. lia. Qed.

Lemma sum_lower_bound (a : Q) l :
  Forall (Qle a) l → a * builtins.len l <= builtins.sum l.
Proof.
  induction 1 as [|x l Hx _ IH].
  { unfold builtins.len, builtins.sum; simpl. rewrite Qmult_0_r. apply Qle_refl. }
  rewrite sum_cons, len_cons, Qmult_plus_distr_r, Qmult_1_r.
  by apply Qplus_le_compat.
Qed.

Lemma sum_upper_bound (b : Q) l :
  Forall (λ y, y <= b) l → builtins.sum l <= b * builtins.len l.
Proof.
  induction 1 as [|x l Hx _ IH].
  { unfold builtins.len, builtins.sum; simpl. rewrite Qmult_0_r. apply Qle_refl. }
  rewrite sum_cons, len_cons, Qmult_plus_distr_r, Qmult_1_r.
  by apply Qplus_le_compat.
Qed.

Lemma sum_nonneg l : Forall (Qle 0) l → 0 <= builtins.sum l.
Proof.
  intros Hall. apply sum_lower_bound in Hall. by rewrite Qmult_0_l in Hall.
Qed.

Lemma square_nonneg (q : Q) : 0 <= q * q.
Proof. destruct q as [a b]. unfold Qle, Qmult; simpl. nia. Qed.

Lemma ss_nonneg c l : 0 <= statistics.ss c l.
Proof.
  unfold statistics.ss. apply sum_nonneg, Forall_forall. intros q Hq.
  apply list_elem_of_In, in_map_iff in Hq as (v & <- & _). apply square_nonneg.
Qed.

(** X11: on a non-empty list the [min] and the [max] of the summary are
    elements of the list, and every element lies between them. *)
Theorem X11_summary_min_max (sqrt : Q → Q) (x : Q) (tl : list Q) :
  ∃ mean stdev min max,
    summarize_list sqrt (x :: tl) = Ok (Stats (length (x :: tl)) mean stdev min max) ∧
    min ∈ x :: tl ∧ max ∈ x :: tl ∧
    Forall (λ y, min <= y ∧ y <= max) (x :: tl).
Proof.
  rewrite summarize_list_summary. eexists _, _, _, _. split; [reflexivity|].
  destruct (min_spec tl x) as (Hmin & Hminx & Hminall).
  destruct (max_spec tl x) as (Hmax & Hmaxx & Hmaxall).
  split; [done|]. split; [done|].
  constructor; [done|].
  apply Forall_forall. intros y Hy. rewrite Forall_forall in Hminall, Hmaxall. auto.
Qed.

(** X12: on a non-empty list the [mean] of the summary lies between its
    [min] and its [max]. *)
Theorem X12_summary_mean_between (sqrt : Q → Q) (x : Q) (tl : list Q) :
  ∃ mean stdev min max,
    summarize_list sqrt (x :: tl) = Ok (Stats (length (x :: tl)) mean stdev min max) ∧
    min <= mean ∧ mean <= max.
Proof.
  rewrite summarize_list_summary. eexists _, _, _, _. split; [reflexivity|].
  destruct (min_spec tl x) as (_ & Hminx & Hminall).
  destruct (max_spec tl x) as (_ & Hmaxx & Hmaxall).
  split.
  - apply Qle_shift_div_l; [apply len_pos|].
    apply sum_lower_bound. by constructor.
  - apply Qle_shift_div_r; [apply len_pos|].
    apply sum_upper_bound. by constructor.
Qed.

(** X13: on a list of two elements or more the [stdev] of the summary is the
    square root of a number that is [>= 0]: the root of a negative number is
    never asked for. *)
Theorem X13_summary_variance_nonneg (sqrt : Q → Q) (x y : Q) (tl : list Q) :
  ∃ mean variance min max,
    summarize_list sqrt (x :: y :: tl) =
      Ok (Stats (length (x :: y :: tl)) mean (sqrt variance) min max) ∧
    0 <= variance.
Proof.
  rewrite summarize_list_summary. eexists _, _, _, _. split; [reflexivity|].
  apply Qle_shift_div_l; [apply len_pos|].
  rewrite Qmult_0_l. apply ss_nonneg.
Qed.

(** ** The report, the webhook summary and the rounds of a session *)

Lemma make_json_report_ok (sqrt : Q → Q) {M} (all_rounds : list RoundResult) (metadata : M) :
  ∃ holds,
    make_json_report sqrt all_rounds metadata =
    Ok (mkReport metadata all_rounds
          (Aggregate.mk (summary sqrt (concat (map inter_key_intervals all_rounds)))
                        (summary sqrt <$> holds))) ∧
    ∀ k, holds !! k = if has_key k all_rounds then Some (all_holds k all_rounds) else None.
Proof.
  unfold make_json_report.
  destruct (report_loop all_rounds [] [] ∅) as (holds & -> & Hholds).
  rewrite summarize_list_summary. simpl.
  rewrite (dict_comprehension_items _ (summary sqrt)) by apply summarize_list_summary.
  simpl. exists holds. split; [done|].
  intros k. rewrite Hholds, lookup_empty. by destruct (has_key k all_rounds).
Qed.




Lemma rounds_loop_ok (perf_counter : nat → Q) captured :
  ∀ tick round_idx args_phrase all_rounds,
    ∃ new_rounds,
      rounds_loop perf_counter tick round_idx args_phrase captured all_rounds
        = Ok (all_rounds ++ new_rounds) ∧
      Forall2 (λ round_events r,
                 compute_round_features round_events
                 = Ok (inter_key_intervals r, key_hold_times r))
              captured new_rounds ∧
      map round_index new_rounds
        = map (λ i, (round_idx + Z.of_nat i)%Z) (seq 0 (length captured)) ∧
      Forall (λ r, phrase r = args_phrase) new_rounds ∧
      round_bounds new_rounds = map perf_counter (seq tick (2 * length captured)).
Proof.
  induction captured as [|round_events captured IH];
    intros tick round_idx args_phrase all_rounds.
  { exists []. simpl. by rewrite app_nil_r. }
  simpl rounds_loop. unfold round_body.
  rewrite compute_round_features_foldl. simpl.
  edestruct (IH (S (S tick)) (round_idx + 1)%Z args_phrase) as
    (new_rounds & -> & Hfeatures & Hindex & Hphrase & Hbounds).
  eexists (_ :: new_rounds). split; [by rewrite <- app_assoc|].
  split; [constructor; [apply compute_round_features_foldl|done]|].
  split; [|split; [by constructor|]].
  - simpl. f_equal; [f_equal; lia|].
    rewrite Hindex, <- seq_shift, map_map. apply map_ext. intros i. lia.
  - unfold round_bounds in *. simpl. rewrite Hbounds.
    by replace (length captured + S (length captured + 0))%nat
      with (S (2 * length captured)) by lia.
Qed.



Lemma all_holds_nonempty k all_rounds :
  Forall (λ r, ∀ k hs, key_hold_times r !! k = Some hs → hs ≠ []) all_rounds →
  has_key k all_rounds = true → all_holds k all_rounds ≠ [].
Proof.
  unfold has_key, all_holds, contains, defaultdict_get.
  induction 1 as [|r all_rounds Hr _ IH]; simpl; [done|].
  intros [Hk|Hk]%orb_prop.
  - apply bool_decide_eq_true_1 in Hk as [hs Hk]. rewrite Hk. simpl.
    specialize (Hr k hs Hk). by destruct hs.
  - specialize (IH Hk). intros [_ ?]%app_eq_nil. done.
Qed.

Lemma features_holds_nonempty round_events r :
  compute_round_features round_events = Ok (inter_key_intervals r, key_hold_times r) →
  ∀ k hs, key_hold_times r !! k = Some hs → hs ≠ [].
Proof.
  rewrite compute_round_features_foldl. intros [= _ <-].
  apply (foldl_invariant holds_nonempty); auto using holds_nonempty_next, holds_nonempty_init.
Qed.


(** X15: in the report of a session, whose rounds [main] builds with
    [compute_round_features], every key of the aggregate hold times has a
    full summary with a count of at least one, never [{count: 0}]. *)
Theorem X15_session_key_summaries_full (sqrt : Q → Q) (perf_counter : nat → Q) {M : Type}
    (captured : list (list KeyEvent)) (tick : nat) (round_idx : Z)
    (args_phrase : string) (metadata : M) :
  ∃ all_rounds out,
    rounds_loop perf_counter tick round_idx args_phrase captured [] = Ok all_rounds ∧
    make_json_report sqrt all_rounds metadata = Ok out ∧
    ∀ k s, Aggregate.key_hold_times (aggregate out) !! k = Some s →
           ∃ n mean stdev min max, s = Stats (S n) mean stdev min max.
Proof.
  destruct (rounds_loop_ok perf_counter captured tick round_idx args_phrase [])
    as (all_rounds & Hrun & Hfeatures & _).
  destruct (make_json_report_ok sqrt all_rounds metadata) as (holds & Hreport & Hholds).
  eexists all_rounds, _. split; [exact Hrun|]. split; [exact Hreport|].
  simpl. intros k s. rewrite lookup_fmap, Hholds.
  destruct (has_key k all_rounds) eqn:Hk; simpl; [|done].
  intros [= <-].
  assert (all_holds k all_rounds ≠ []) as Hne.
  { apply all_holds_nonempty; [|done].
    clear -Hfeatures. induction Hfeatures as [|evs r ? ? Hr _ IH]; constructor; [|done].
    by apply (features_holds_nonempty evs). }
  destruct (all_holds k all_rounds) as [|x tl]; [done|].
  unfold summary. eexists _, _, _, _, _. reflexivity.
Qed.

(** X16: the rounds of [main] give one [RoundResult] per round, in order,
    numbered consecutively from the first index, each with the phrase asked
    for and with the features [compute_round_features] extracts from the
    events of that round. *)
Theorem X16_rounds_numbered (perf_counter : nat → Q) (captured : list (list KeyEvent))
    (tick : nat) (round_idx : Z) (args_phrase : string) :
  ∃ all_rounds,
    rounds_loop perf_counter tick round_idx args_phrase captured [] = Ok all_rounds ∧
    map round_index all_rounds
      = map (λ i, (round_idx + Z.of_nat i)%Z) (seq 0 (length captured)) ∧
    Forall (λ r, phrase r = args_phrase) all_rounds ∧
    Forall2 (λ round_events r,
               compute_round_features round_events
               = Ok (inter_key_intervals r, key_hold_times r))
            captured all_rounds.
Proof.
  destruct (rounds_loop_ok perf_counter captured tick round_idx args_phrase [])
    as (all_rounds & Hrun & Hfeatures & Hindex & Hphrase & _).
  by exists all_rounds.
Qed.

(** X17: when the clock does not run backwards the rounds of [main] follow
    one another in time: the start and end times of the rounds, taken round
    after round, do not decrease. *)
Theorem X17_rounds_in_time_order (perf_counter : nat → Q) :
  (∀ i, perf_counter i <= perf_counter (S i)) →
  ∀ (captured : list (list KeyEvent)) (tick : nat) (round_idx : Z) (args_phrase : string),
    ∃ all_rounds,
      rounds_loop perf_counter tick round_idx args_phrase captured [] = Ok all_rounds ∧
      nondecreasing (round_bounds all_rounds) = true.
Proof.
  intros Hclock captured tick round_idx args_phrase.
  destruct (rounds_loop_ok perf_counter captured tick round_idx args_phrase [])
    as (all_rounds & Hrun & _ & _ & _ & Hbounds).
  exists all_rounds. split; [exact Hrun|].
  rewrite Hbounds. by apply nondecreasing_clock.
Qed.

(** X17 on three rounds, for the clock whose [n]-th reading is [n]. *)
Lemma X17_rounds_in_time_order_witness :
  ∃ all_rounds,
    rounds_loop (λ n, inject_Z (Z.of_nat n)) 0 1 "the quick brown fox"
                [[Down "t" 0; Up "t" 1]; []; [Down "h" 5]] [] = Ok all_rounds ∧
    nondecreasing (round_bounds all_rounds) = true.
Proof.
  apply (X17_rounds_in_time_order (λ n, inject_Z (Z.of_nat n))).
  intros i. rewrite <- Zle_Qle. lia.
Defined.


